(** * Client-side helpers of the Cancer Risk Assessment front-end

    A shallow embedding of two event handlers of [static/js/main.js]:
    the [input] handler attached to every [input[type="number"]]
    (lines 73-85) and the [click] handler attached to every [.sortable]
    table header (lines 165-196).

    JavaScript strings are sequences of code units; we write them as
    [string], one [ascii] per code unit, which covers the code units
    below 256.  The DOM is reduced to what the two handlers read and
    write: the [value] of a field, the class list of the sortable
    headers, and the rows of each table body with the text of their
    cells. *)

From stdpp Require Import base list sets sorting strings gmap.
From Stdlib Require Import ZArith Ascii String.

Open Scope string_scope.

(** ** Completion records

    A JavaScript call either completes normally with a value or throws.
    The only exception the modelled code can raise is the [TypeError]
    of a property access on [null] or [undefined]. *)

Inductive exn := TypeError.

Inductive completion (A : Type) :=
| Normal (a : A)
| Throw (e : exn).

Arguments Normal {A} a.
Arguments Throw {A} e.

#[global] Instance completion_ret : MRet completion := @Normal.

#[global] Instance completion_bind : MBind completion :=
  fun A B (k : A -> completion B) (c : completion A) =>
    match c with
    | Normal a => k a
    | Throw e => Throw e
    end.

(** ** Strings *)

Module JSString.

Definition code (c : ascii) : nat := nat_of_ascii c.

(** The character class [[0-9]]. *)
Definition isDigit (c : ascii) : bool :=
  (48 <=? code c)%nat && (code c <=? 57)%nat.

(** WhiteSpace and LineTerminator code units below 256: TAB, LF, VT, FF,
    CR, SPACE and NO-BREAK SPACE. *)
Definition isWhiteSpace (c : ascii) : bool :=
  ((9 <=? code c)%nat && (code c <=? 13)%nat)
  || (code c =? 32)%nat || (code c =? 160)%nat.

Fixpoint trimStart (s : string) : string :=
  match s with
  | String c s' => if isWhiteSpace c then trimStart s' else s
  | EmptyString => EmptyString
  end.

Fixpoint trimEnd (s : string) : string :=
  match s with
  | EmptyString => EmptyString
  | String c s' =>
      match trimEnd s' with
      | EmptyString => if isWhiteSpace c then EmptyString else String c EmptyString
      | t => String c t
      end
  end.

(** [String.prototype.trim] *)
Definition trim (s : string) : string := trimEnd (trimStart s).

(** [s.split('.')]: the substrings between the dots, in order. *)
Fixpoint split_dot (s : string) : list string :=
  match s with
  | EmptyString => [EmptyString]
  | String c s' =>
      if Ascii.eqb c "."%char then EmptyString :: split_dot s'
      else match split_dot s' with
           | p :: ps => String c p :: ps
           | [] => [String c EmptyString]
           end
  end.

(** [parts.join('')] *)
Definition join_empty (parts : list string) : string :=
  foldr String.append EmptyString parts.

(** Number of occurrences of a code unit. *)
Fixpoint count (c : ascii) (s : string) : nat :=
  match s with
  | EmptyString => 0
  | String c' s' => (if Ascii.eqb c' c then 1 else 0) + count c s'
  end.

(** Every code unit of the string satisfies [p]. *)
Fixpoint all (p : ascii -> bool) (s : string) : bool :=
  match s with
  | EmptyString => true
  | String c s' => p c && all p s'
  end.

(** [s.replace(/[^...]/g, '')] for a character class [keep]. *)
Fixpoint keepOnly (keep : ascii -> bool) (s : string) : string :=
  match s with
  | EmptyString => EmptyString
  | String c s' => if keep c then String c (keepOnly keep s') else keepOnly keep s'
  end.

End JSString.

(** ** Number input formatting (main.js, lines 73-85) *)

Module NumberInput.
Import JSString.

(** The character class [[0-9.]]. *)
Definition numericChar (c : ascii) : bool := isDigit c || Ascii.eqb c "."%char.

(** [this.value.replace(/[^0-9.]/g, '')] *)
Definition stripNonNumeric (value : string) : string := keepOnly numericChar value.

(** The handler, as a function from the field's value before the event
    to its value afterwards.  [value] is read and written as a plain
    string property. *)
Definition onInput (value : string) : string :=
  let value1 := stripNonNumeric value in
  let parts := split_dot value1 in
  if (2 <? List.length parts)%nat
  then hd EmptyString parts ++ "." ++ join_empty (tl parts)
  else value1.

(** The behaviour in the words of the comment "Ensure only one decimal
    point": keep the first dot, drop every later one. *)
Fixpoint dropDots (s : string) : string :=
  match s with
  | EmptyString => EmptyString
  | String c s' => if Ascii.eqb c "."%char then dropDots s' else String c (dropDots s')
  end.

Fixpoint keepFirstDot (s : string) : string :=
  match s with
  | EmptyString => EmptyString
  | String c s' =>
      if Ascii.eqb c "."%char then String c (dropDots s')
      else String c (keepFirstDot s')
  end.

End NumberInput.

(** ** JavaScript arrays *)

Module JSArray.
Section Sort.
Context {A : Type}.

(** [Array.prototype.sort(comparefn)].  The language requires the sort
    to be stable, and for a consistent comparator every stable sort
    returns the same array; insertion from the right is the
    representative used here.  [comparefn] may throw, and the exception
    leaves the sort. *)
Fixpoint insert (comparefn : A -> A -> completion Z) (x : A) (l : list A)
  : completion (list A) :=
  match l with
  | [] => Normal [x]
  | y :: l' =>
      v ← comparefn x y;
      if (v <=? 0)%Z then Normal (x :: y :: l')
      else (r ← insert comparefn x l'; Normal (y :: r))
  end.

Fixpoint sort (comparefn : A -> A -> completion Z) (l : list A)
  : completion (list A) :=
  match l with
  | [] => Normal []
  | x :: l' => s ← sort comparefn l'; insert comparefn x s
  end.

(** The same sort for a comparator that cannot throw. *)
Fixpoint insert_by (cmp : A -> A -> Z) (x : A) (l : list A) : list A :=
  match l with
  | [] => [x]
  | y :: l' => if (cmp x y <=? 0)%Z then x :: y :: l' else y :: insert_by cmp x l'
  end.

Fixpoint sort_by (cmp : A -> A -> Z) (l : list A) : list A :=
  match l with
  | [] => []
  | x :: l' => insert_by cmp x (sort_by cmp l')
  end.

(** A consistent comparator, as the language defines it for [sort]:
    [=CF] is an equivalence, [<CF] and [>CF] are transitive. *)
Record consistent (cmp : A -> A -> Z) : Prop := {
  cf_refl : forall a, cmp a a = 0%Z;
  cf_sym : forall a b, cmp a b = 0%Z -> cmp b a = 0%Z;
  cf_trans_eq : forall a b c, cmp a b = 0%Z -> cmp b c = 0%Z -> cmp a c = 0%Z;
  cf_trans_lt : forall a b c, (cmp a b < 0)%Z -> (cmp b c < 0)%Z -> (cmp a c < 0)%Z;
  cf_trans_gt : forall a b c, (cmp a b > 0)%Z -> (cmp b c > 0)%Z -> (cmp a c > 0)%Z
}.

(** [a] may precede [b] in an array sorted by [cmp]; [a] must precede
    [b]. *)
Definition before (cmp : A -> A -> Z) (a b : A) : Prop := (cmp a b <= 0)%Z.
Definition strictlyBefore (cmp : A -> A -> Z) (a b : A) : Prop := (cmp a b < 0)%Z.

End Sort.
End JSArray.

(** ** The DOM, as the table sorter sees it *)

Module DOM.

(** A row of a table body: a node with an identity and the text content
    of its cells, in column order. *)
Record Row := { row_id : nat; cells : list string }.

(** A sortable header: its class list, its position among the children
    of its parent, and the table that [closest('table')] finds (an index
    into the document's tables), if any. *)
Record Header := {
  classList : list string;
  cellIndex : nat;
  closestTable : option nat
}.

(** A table: the rows of the body [querySelector('tbody')] finds, if the
    table has one.  This record describes the bodies whose cells hold
    text only, so that the [tr] descendants of the body, which line 171
    collects, are its children.  A body with a table nested in a cell is
    outside of it: see [Nested], whose handler [click_ofDocument] shows to
    agree with this one on the documents described here. *)
Record Table := { tbody : option (list Row) }.

(** [sortableHeaders] is the static node list that
    [document.querySelectorAll('.sortable')] returned when the page was
    loaded; the click handler is registered on each of its members. *)
Record Document := {
  sortableHeaders : list Header;
  tables : list Table
}.

(** [classList.contains(token)] *)
Definition contains (cl : list string) (token : string) : bool :=
  bool_decide (token ∈ cl).

(** [classList.add(token)] *)
Definition add (token : string) (cl : list string) : list string :=
  if contains cl token then cl else cl ++ [token].

(** [classList.remove(...tokens)] *)
Definition remove (tokens : list string) (cl : list string) : list string :=
  filter (fun t => t ∉ tokens) cl.

Definition withClassList (f : list string -> list string) (h : Header) : Header :=
  {| classList := f (classList h);
     cellIndex := cellIndex h;
     closestTable := closestTable h |}.

(** [tbody.appendChild(row)]: a node already in the tree is first
    removed from its parent, then added as the last child. *)
Definition appendChild (children : list Row) (row : Row) : list Row :=
  filter (fun r => row_id r ≠ row_id row) children ++ [row].

(** The rows of a table's body ([[]] when there is no body). *)
Definition bodyRows (d : Document) (t : nat) : list Row :=
  default [] (tbl ← tables d !! t; tbody tbl).

(** Nodes are distinct: no row occurs twice among the children of a body. *)
Definition distinctRows (tbl : Table) : Prop :=
  NoDup (row_id <$> default [] (tbody tbl)).

Definition wellFormed (d : Document) : Prop := Forall distinctRows (tables d).

#[global] Instance distinctRows_dec tbl : Decision (distinctRows tbl).
Proof. unfold distinctRows. apply _. Defined.

#[global] Instance wellFormed_dec d : Decision (wellFormed d).
Proof. unfold wellFormed. apply _. Defined.

(** [this.closest('table')] followed by [table.querySelector('tbody')]:
    the index of the table and the rows of its body, when both exist. *)
Definition findBody (d : Document) (h : Header) : option (nat * list Row) :=
  t ← closestTable h; tbl ← tables d !! t; rows ← tbody tbl; Some (t, rows).

(** The row has a cell in that column. *)
Definition hasCell (column : nat) (row : Row) : Prop := is_Some (cells row !! column).

End DOM.

(** ** Table sorting (main.js, lines 165-196) *)

Module TableSorter.
Import JSString DOM.

Definition sort_asc : string := "sort-asc".
Definition sort_desc : string := "sort-desc".

Section Handler.

(** [a.localeCompare(b, undefined, { numeric: true })], the collation of
    the browser's default locale with numeric ordering switched on. *)
Variable localeCompare : string -> string -> Z.

(** [row.cells[column].textContent.trim()].  A row without a cell at
    that index yields [undefined], whose [textContent] is a TypeError. *)
Definition cellText (column : nat) (row : Row) : completion string :=
  match cells row !! column with
  | Some text => Normal (trim text)
  | None => Throw TypeError
  end.

(** The comparator given to [rows.sort] (lines 182-191). *)
Definition compareRows (isAscending : bool) (column : nat) (a b : Row)
  : completion Z :=
  aValue ← cellText column a;
  bValue ← cellText column b;
  if isAscending
  then Normal (localeCompare bValue aValue)
  else Normal (localeCompare aValue bValue).

(** Lines 171 and 182-194 on the rows of a body whose cells hold text
    only, where the array that [querySelectorAll('tr')] returns is the
    sequence of children: sort the array, then re-append every row in
    the sorted order.  The result is the new sequence of children of the
    body.  [Nested.sortBody] is the same code on a body whose cells may
    hold tables. *)
Definition sortBody (isAscending : bool) (column : nat) (rows : list Row)
  : completion (list Row) :=
  sorted ← JSArray.sort (compareRows isAscending column) rows;
  Normal (foldl appendChild rows sorted).

(** Lines 176-179: clear both markers on every sortable header of the
    page, then mark header [i]. *)
Definition updateMarkers (isAscending : bool) (i : nat) (hs : list Header)
  : list Header :=
  alter (withClassList (add (if isAscending then sort_desc else sort_asc))) i
    (withClassList (remove [sort_asc; sort_desc]) <$> hs).

(** The click handler on the [i]-th sortable header.  It returns the
    document after the event and how the handler completed.  When the
    header has no enclosing table, or the table no body, [findBody]
    fails: [table.querySelector] or [tbody.querySelectorAll] is then a
    property access on [null], a TypeError raised before anything is
    written. *)
Definition click (d : Document) (i : nat) : Document * completion unit :=
  match sortableHeaders d !! i with
  | None => (d, Normal tt)
  | Some this =>
      match findBody d this with
      | None => (d, Throw TypeError)
      | Some (t, rows) =>
          let column := cellIndex this in
          let isAscending := contains (classList this) sort_asc in
          let hs := updateMarkers isAscending i (sortableHeaders d) in
          match sortBody isAscending column rows with
          | Throw e =>
              ({| sortableHeaders := hs; tables := tables d |}, Throw e)
          | Normal rows' =>
              ({| sortableHeaders := hs;
                  tables := <[t := {| tbody := Some rows' |}]> (tables d) |},
               Normal tt)
          end
      end
  end.

End Handler.

(** *** The sort state of a column, as the header's markers record it *)

Inductive SortState := Unset | Ascending | Descending.

Definition sortState (h : Header) : SortState :=
  if contains (classList h) sort_asc then Ascending
  else if contains (classList h) sort_desc then Descending
  else Unset.

(** The transition of the state machine: unset and descending go to
    ascending, ascending goes to descending. *)
Definition toggle (s : SortState) : SortState :=
  match s with
  | Unset => Ascending
  | Ascending => Descending
  | Descending => Ascending
  end.

(** Number of direction markers a header carries. *)
Definition markers (h : Header) : nat :=
  List.length (filter (fun t => t ∈ [sort_asc; sort_desc]) (classList h)).

(** The sort key of a row, where the row has the cell. *)
Definition key (column : nat) (row : Row) : string :=
  default EmptyString (trim <$> cells row !! column).

(** The order of the rows by key, and the same with the operands
    exchanged. *)
Definition ascending (localeCompare : string -> string -> Z) (column : nat)
  (a b : Row) : Z := localeCompare (key column a) (key column b).

Definition descending (localeCompare : string -> string -> Z) (column : nat)
  (a b : Row) : Z := localeCompare (key column b) (key column a).

(** The order the comparator of a click implements, by the value of
    [isAscending] read before the markers are updated. *)
Definition rowOrder (localeCompare : string -> string -> Z) (isAscending : bool)
  (column : nat) : Row -> Row -> Z :=
  if isAscending then descending localeCompare column
  else ascending localeCompare column.

End TableSorter.

(** ** A collator with numeric ordering

    [localeCompare] is the browser's; the handler is verified for any
    collation, under the properties a statement needs.  [numericCollate]
    is one concrete collation with numeric ordering: a string is read as
    a sequence of collation elements, a maximal run of digits being one
    element that weighs its numeric value (so leading zeros do not
    count), any other code unit weighing its code; keys are compared
    element by element. *)

Module Collator.
Import JSString.

Definition digitValue (c : ascii) : N := N.of_nat (code c - 48).

Fixpoint decimalFrom (acc : N) (s : string) : N :=
  match s with
  | EmptyString => acc
  | String c s' => decimalFrom (10 * acc + digitValue c) s'
  end.

(** The number a string of digits denotes. *)
Definition decimalValue (s : string) : N := decimalFrom 0 s.

(** A non-empty string of digits, short enough for a collator to weigh
    it as one number (ICU treats up to 254 digits as a unit). *)
Definition numeral (s : string) : Prop :=
  s ≠ EmptyString ∧ all isDigit s = true ∧ String.length s <= 254.

(** What [{ numeric: true }] asks of a collation: numerals are ordered
    by the numbers they denote. *)
Definition numericOrdering (localeCompare : string -> string -> Z) : Prop :=
  forall a b, numeral a -> numeral b ->
    (localeCompare a b ?= 0)%Z = (decimalValue a ?= decimalValue b)%N.

Inductive element := Num (n : N) | Chr (c : ascii).

Fixpoint elements (run : option N) (s : string) : list element :=
  match s with
  | EmptyString =>
      match run with Some n => [Num n] | None => [] end
  | String c s' =>
      if isDigit c
      then elements (Some (10 * default 0%N run + digitValue c)%N) s'
      else match run with
           | Some n => Num n :: Chr c :: elements None s'
           | None => Chr c :: elements None s'
           end
  end.

Definition weight (e : element) : list N :=
  match e with
  | Num n => [48%N; n]
  | Chr c => [N.of_nat (code c); 0%N]
  end.

Definition collationKey (s : string) : list N :=
  List.concat (weight <$> elements None s).

Fixpoint lex (k1 k2 : list N) : comparison :=
  match k1, k2 with
  | [], [] => Eq
  | [], _ :: _ => Lt
  | _ :: _, [] => Gt
  | x :: k1', y :: k2' =>
      match (x ?= y)%N with
      | Eq => lex k1' k2'
      | c => c
      end
  end.

Definition numericCollate (a b : string) : Z :=
  match lex (collationKey a) (collationKey b) with
  | Lt => (-1)%Z
  | Eq => 0%Z
  | Gt => 1%Z
  end.

End Collator.

(** ** Sample documents *)

Module Samples.
Import DOM TableSorter.

Definition plainHeader (column : nat) (table : option nat) : Header :=
  {| classList := ["sortable"]; cellIndex := column; closestTable := table |}.

(** A table of three rows and two columns with two sortable headers,
    none of them marked. *)
Definition scores : Document :=
  {| sortableHeaders := [plainHeader 0 (Some 0); plainHeader 1 (Some 0)];
     tables := [ {| tbody := Some [ {| row_id := 0; cells := ["2"; " Bob"] |};
                                    {| row_id := 1; cells := ["10"; "alice "] |};
                                    {| row_id := 2; cells := ["1"; "Charlie"] |} ] |} ] |}.

(** The same table after its second column was sorted descending. *)
Definition scoresMarked : Document :=
  {| sortableHeaders :=
       [plainHeader 0 (Some 0);
        {| classList := ["sortable"; sort_desc]; cellIndex := 1; closestTable := Some 0 |}];
     tables := tables scores |}.

(** A table whose body has no rows. *)
Definition emptyBody : Document :=
  {| sortableHeaders := [plainHeader 0 (Some 0)];
     tables := [ {| tbody := Some [] |} ] |}.

(** A sortable header outside any table. *)
Definition noTable : Document :=
  {| sortableHeaders := [plainHeader 0 None]; tables := [] |}.

(** A table that has a header row but no body. *)
Definition noBody : Document :=
  {| sortableHeaders := [plainHeader 0 (Some 0)];
     tables := [ {| tbody := None |} ] |}.

(** Two rows whose keys differ only by a leading zero. *)
Definition leadingZero : Document :=
  {| sortableHeaders := [plainHeader 0 (Some 0)];
     tables := [ {| tbody := Some [ {| row_id := 0; cells := ["01"] |};
                                    {| row_id := 1; cells := ["1"] |} ] |} ] |}.

End Samples.

(** ** Validation feedback (main.js, lines 87-139) *)

Module Validation.
Import JSString DOM.

Definition is_valid : string := "is-valid".
Definition is_invalid : string := "is-invalid".

(** A form control, as the validation handlers see it: its class list,
    its [value], its [min] and [max] attributes (empty when absent) and
    the answer of the browser's [checkValidity()] for its current
    state. *)
Record Field := {
  fieldClassList : list string;
  fieldValue : string;
  fieldMin : string;
  fieldMax : string;
  checkValidity : bool
}.

Definition setClassList (field : Field) (cl : list string) : Field :=
  {| fieldClassList := cl;
     fieldValue := fieldValue field;
     fieldMin := fieldMin field;
     fieldMax := fieldMax field;
     checkValidity := checkValidity field |}.

(** [validateField] (lines 101-112), also the [blur] handler. *)
Definition validateField (field : Field) : Field :=
  let isValid := checkValidity field in
  let cl := remove [is_valid; is_invalid] (fieldClassList field) in
  if negb (String.eqb (trim (fieldValue field)) EmptyString)
  then if isValid
       then setClassList field (add is_valid cl)
       else setClassList field (add is_invalid cl)
  else setClassList field cl.

(** The [input] handler of lines 94-98. *)
Definition onInputFeedback (field : Field) : Field :=
  if contains (fieldClassList field) is_invalid
  then validateField field
  else field.

Section Range.

(** JavaScript numbers with their comparison, and [parseFloat]: [lt x y]
    is [x < y], and [value > max] is [lt max value]. *)
Variable number : Type.
Variable parseFloat : string -> number.
Variable isNaN : number -> bool.
Variable lt : number -> number -> bool.

(** [validateRange] (lines 124-138), the [input] handler of the number
    fields of the assessment form. *)
Definition validateRange (input : Field) : Field :=
  let value := parseFloat (fieldValue input) in
  let min := parseFloat (fieldMin input) in
  let max := parseFloat (fieldMax input) in
  if isNaN value then input
  else if lt value min || lt max value
       then setClassList input
              (remove [is_valid] (add is_invalid (fieldClassList input)))
       else setClassList input
              (remove [is_invalid] (add is_valid (fieldClassList input))).

(** Every comparison with NaN is false. *)
Definition nanUnordered : Prop :=
  forall x y, isNaN x = true ∨ isNaN y = true -> lt x y = false.

End Range.

(** The field shows at most one verdict. *)
Definition oneVerdict (field : Field) : Prop :=
  ¬ (is_valid ∈ fieldClassList field ∧ is_invalid ∈ fieldClassList field).

End Validation.

(** ** Dark mode (main.js, lines 151-163) *)

Module DarkMode.
Import DOM.

Definition dark_mode : string := "dark-mode".
Definition darkMode : string := "darkMode".

(** The page: the class list of [document.body] and the local storage of
    the origin. *)
Record Page := {
  bodyClassList : list string;
  localStorage : gmap string string
}.

(** [classList.toggle(token)] *)
Definition toggle (token : string) (cl : list string) : list string :=
  if contains cl token then remove [token] cl else add token cl.

(** [setItem] stores the string of its argument; for a boolean that is
    "true" or "false". *)
Definition toString (b : bool) : string := if b then "true" else "false".

(** The click handler of the toggle (lines 154-157). *)
Definition onToggle (p : Page) : Page :=
  let cl := toggle dark_mode (bodyClassList p) in
  {| bodyClassList := cl;
     localStorage := <[darkMode := toString (contains cl dark_mode)]> (localStorage p) |}.

(** Loading the saved preference (lines 160-162). *)
Definition loadPreference (p : Page) : Page :=
  if decide (localStorage p !! darkMode = Some "true")
  then {| bodyClassList := add dark_mode (bodyClassList p);
          localStorage := localStorage p |}
  else p.

(** A later visit: the body starts from the classes of the markup, the
    storage is the one the last visit left. *)
Definition revisit (markup : list string) (p : Page) : Page :=
  loadPreference {| bodyClassList := markup; localStorage := localStorage p |}.

End DarkMode.

(** ** CSV export (main.js, lines 266-271) *)

Module CsvExport.
Import JSString.

Definition quote : ascii := "034"%char.
Definition comma : ascii := ","%char.
Definition newline : ascii := "010"%char.

(** [parts.join(sep)] *)
Fixpoint join (sep : string) (parts : list string) : string :=
  match parts with
  | [] => EmptyString
  | [p] => p
  | p :: ps => p ++ sep ++ join sep ps
  end.

(** The template literal of line 270: the trimmed text between quotes. *)
Definition quoted (textContent : string) : string :=
  String quote (trim textContent ++ String quote EmptyString).

(** The text [exportToCSV] puts in the blob, for a table given as the
    cell texts ([td] and [th]) of each of its rows. *)
Definition csv (table : list (list string)) : string :=
  join (String newline EmptyString)
    ((fun row => join (String comma EmptyString) (quoted <$> row)) <$> table).

(** The exported text of a cell holds no line feed and no quote. *)
Definition plain (textContent : string) : Prop :=
  count newline (trim textContent) = 0 ∧ count quote (trim textContent) = 0.

End CsvExport.

(** ** Debouncing (main.js, lines 337-351)

    The timers of the page are kept as a finite map from the identifier
    [setTimeout] returned to the closure that was scheduled; here the
    closure is [later], determined by the arguments of the call that
    created it.  A timer that fires, or is cleared, leaves the map.  The
    delay itself is not modelled: a property speaks of the order of the
    calls and the firings only. *)

Module Debounce.
Section Debounced.

(** The receiver and the arguments of one call. *)
Context {Args : Type}.

Variable immediate : bool.

(** [timeout] is the variable of the closure, [timers] and [nextId] are
    the browser's, [invoked] lists the calls of [func] so far, oldest
    first. *)
Record State := {
  timeout : option nat;
  timers : gmap nat Args;
  nextId : nat;
  invoked : list Args
}.

(** Right after [debounce(func, wait, immediate)] returned. *)
Definition initial : State :=
  {| timeout := None; timers := ∅; nextId := 1; invoked := [] |}.

(** [clearTimeout(timeout)]; without an identifier nothing happens. *)
Definition clearTimeout (id : option nat) (ts : gmap nat Args) : gmap nat Args :=
  match id with
  | Some i => delete i ts
  | None => ts
  end.

(** One call of the debounced function ([executedFunction]). *)
Definition executedFunction (args : Args) (s : State) : State :=
  let callNow := immediate && negb (bool_decide (is_Some (timeout s))) in
  let ts := clearTimeout (timeout s) (timers s) in
  let id := nextId s in
  {| timeout := Some id;
     timers := <[id := args]> ts;
     nextId := S id;
     invoked := if callNow then invoked s ++ [args] else invoked s |}.

(** The timer [id] fires and runs its [later]; a timer that is not
    pending cannot fire. *)
Definition later (id : nat) (s : State) : option State :=
  match timers s !! id with
  | None => None
  | Some args =>
      Some {| timeout := None;
              timers := delete id (timers s);
              nextId := nextId s;
              invoked := if immediate then invoked s else invoked s ++ [args] |}
  end.

Inductive event := Call (args : Args) | Fire (id : nat).

Definition step (s : State) (e : event) : option State :=
  match e with
  | Call args => Some (executedFunction args s)
  | Fire id => later id s
  end.

Fixpoint run (s : State) (es : list event) : option State :=
  match es with
  | [] => Some s
  | e :: es' =>
      match step s e with
      | Some s' => run s' es'
      | None => None
      end
  end.

(** Number of calls of the debounced function in a trace. *)
Fixpoint callCount (es : list event) : nat :=
  match es with
  | [] => 0
  | Call _ :: es' => S (callCount es')
  | Fire _ :: es' => callCount es'
  end.

(** The only pending timer is the one [timeout] names. *)
Definition coherent (s : State) : Prop :=
  match timeout s with
  | Some id => (exists args, timers s = {[id := args]}) ∧ id < nextId s
  | None => timers s = ∅
  end.

End Debounced.
End Debounce.

(** ** Sample numbers and fields

    [parseFloat] and the comparison of numbers are the browser's; the
    range check is verified for any of them.  The sample below knows the
    non-negative integers only: a string of digits parses to its value,
    anything else to NaN. *)

Module SampleNumbers.
Import JSString Collator Validation.

Definition number : Type := option Z.

Definition parseFloat (s : string) : number :=
  match s with
  | EmptyString => None
  | String _ _ => if all isDigit s then Some (Z.of_N (decimalValue s)) else None
  end.

Definition isNaN (x : number) : bool :=
  match x with
  | None => true
  | Some _ => false
  end.

Definition lt (x y : number) : bool :=
  match x, y with
  | Some a, Some b => (a <? b)%Z
  | _, _ => false
  end.

(** An age field with bounds 18 and 100 that holds 7 and was never
    validated, and a free number field without bounds. *)
Definition age : Field :=
  {| fieldClassList := ["form-control"]; fieldValue := "7";
     fieldMin := "18"; fieldMax := "100"; checkValidity := false |}.

Definition free : Field :=
  {| fieldClassList := ["form-control"; "is-invalid"]; fieldValue := "7";
     fieldMin := ""; fieldMax := ""; checkValidity := true |}.

End SampleNumbers.

(** ** More sample data *)

Module MoreSamples.
Import DOM TableSorter DarkMode Debounce.

(** A light page that has never stored a preference. *)
Definition firstVisit : Page :=
  {| bodyClassList := ["bg-light"]; localStorage := ∅ |}.

(** A results table with its header row. *)
Definition results : list (list string) :=
  [ ["Name"; " Risk "]; ["Ann"; "12"]; [" Bob"; "7"] ].

(** A debounced function called with 10 and 20, whose timer then fired,
    and called again with 30 (trailing mode). *)
Definition trace : list (event (Args:=nat)) :=
  [Call 10; Call 20; Fire 2; Call 30].

Definition afterTrace : State (Args:=nat) :=
  {| timeout := Some 3; timers := {[3 := 30]}; nextId := 4; invoked := [20] |}.

(** The state after the same trace without its last call. *)
Definition idleAfterBurst : State (Args:=nat) :=
  {| timeout := None; timers := ∅; nextId := 3; invoked := [20] |}.

(** A table whose second row has no cell at all. *)
Definition ragged : Document :=
  {| sortableHeaders :=
       [ {| classList := ["sortable"]; cellIndex := 0; closestTable := Some 0 |} ];
     tables := [ {| tbody := Some [ {| row_id := 0; cells := ["2"] |};
                                    {| row_id := 1; cells := [] |} ] |} ] |}.


(** Rows with ties: "1", "2", "01", "02". *)
Definition tied : Document :=
  {| sortableHeaders :=
       [ {| classList := ["sortable"]; cellIndex := 0; closestTable := Some 0 |} ];
     tables := [ {| tbody := Some [ {| row_id := 0; cells := ["2"] |};
                                    {| row_id := 1; cells := ["1"] |};
                                    {| row_id := 2; cells := ["02"] |};
                                    {| row_id := 3; cells := ["01"] |} ] |} ] |}.

End MoreSamples.

(** ** Bodies with nested tables

    [tbody.querySelectorAll('tr')] (line 171) returns every [tr]
    descendant of the body, also the rows of a table that stands in one
    of its cells, and [tbody.appendChild(row)] (line 194) moves such a
    row out of the nested table into the clicked body, which changes the
    text of the row that enclosed it.  [DOM.Table] and
    [TableSorter.click] describe bodies whose rows enclose no other row;
    the model below keeps the content of the cells: text, and the rows
    of the tables nested in them. *)

Module Nested.
Import JSString DOM.

(** A row is a node with an identity and its cells, in column order; a
    cell is a sequence of text and tables; of a table in a cell the model
    keeps the rows (those of its head, bodies and foot, in document
    order), which are the [tr] elements that [querySelectorAll('tr')]
    finds under the cell. *)
Inductive Tr : Type :=
| tr (id : nat) (tds : list (list Content))
with Content : Type :=
| text (data : string)
| table (trs : list Tr).

Definition row_id (row : Tr) : nat := match row with tr id _ => id end.

(** [row.cells]: the content of each cell, in column order. *)
Definition cells (row : Tr) : list (list Content) :=
  match row with tr _ tds => tds end.

(** [textContent]: the text of the descendants, in document order. *)
Fixpoint textContentTr (row : Tr) : string :=
  match row with
  | tr _ tds =>
      join_empty (List.map (fun td => join_empty (List.map textContentOf td)) tds)
  end
with textContentOf (c : Content) : string :=
  match c with
  | text data => data
  | table trs => join_empty (List.map textContentTr trs)
  end.

Definition textContent (td : list Content) : string :=
  join_empty (List.map textContentOf td).

(** The [tr] descendants of a row, in document order. *)
Fixpoint descendants (row : Tr) : list Tr :=
  match row with
  | tr _ tds => List.concat (List.map (fun td => List.concat (List.map within td)) tds)
  end
with within (c : Content) : list Tr :=
  match c with
  | text _ => []
  | table trs => List.concat (List.map (fun r => r :: descendants r) trs)
  end.

(** [tbody.querySelectorAll('tr')] for a body with these children. *)
Definition querySelectorAll_tr (children : list Tr) : list Tr :=
  List.concat (List.map (fun r => r :: descendants r) children).

(** The tree without the row [id], wherever it stands. *)
Fixpoint removeFromTr (id : nat) (row : Tr) : Tr :=
  match row with
  | tr i tds => tr i (List.map (List.map (removeFromContent id)) tds)
  end
with removeFromContent (id : nat) (c : Content) : Content :=
  match c with
  | text data => text data
  | table trs =>
      table (List.concat
               (List.map (fun r => if (row_id r =? id)%nat then []
                                   else [removeFromTr id r]) trs))
  end.

Definition removeRow (id : nat) (children : list Tr) : list Tr :=
  List.concat
    (List.map (fun r => if (row_id r =? id)%nat then [] else [removeFromTr id r])
       children).

(** [tbody.appendChild(row)]: the node, as it is in the tree now, leaves
    its parent and becomes the last child of the body. *)
Definition appendChild (children : list Tr) (row : Tr) : list Tr :=
  match List.find (fun r => (row_id r =? row_id row)%nat) (querySelectorAll_tr children) with
  | Some node => removeRow (row_id row) children ++ [node]
  | None => children ++ [row]
  end.

Record Table := { tbody : option (list Tr) }.

Record Document := {
  sortableHeaders : list Header;
  tables : list Table
}.

(** The children of a table's body ([[]] when there is no body). *)
Definition bodyRows (d : Document) (t : nat) : list Tr :=
  default [] (tbl ← tables d !! t; tbody tbl).

Definition findBody (d : Document) (h : Header) : option (nat * list Tr) :=
  t ← closestTable h; tbl ← tables d !! t; children ← tbody tbl; Some (t, children).

Definition hasCell (column : nat) (row : Tr) : Prop := is_Some (cells row !! column).

(** The row encloses no other row: its cells hold text and tables
    without rows only. *)
Definition noNestedRow (row : Tr) : bool :=
  forallb (forallb (fun c => match c with
                             | text _ => true
                             | table [] => true
                             | table (_ :: _) => false
                             end)) (cells row).

(** Every [tr] descendant of the body is one of its children, and the
    nodes are distinct. *)
Definition flatBody (children : list Tr) : Prop :=
  Forall (fun r => noNestedRow r = true) children ∧ NoDup (row_id <$> children).

Definition wellFormed (d : Document) : Prop :=
  Forall (fun tbl => flatBody (default [] (tbody tbl))) (tables d).

#[global] Instance flatBody_dec children : Decision (flatBody children).
Proof. unfold flatBody. apply _. Defined.

#[global] Instance wellFormed_dec d : Decision (wellFormed d).
Proof. unfold wellFormed. apply _. Defined.

Section Handler.

Variable localeCompare : string -> string -> Z.

(** [row.cells[column].textContent.trim()] *)
Definition cellText (column : nat) (row : Tr) : completion string :=
  match cells row !! column with
  | Some td => Normal (trim (textContent td))
  | None => Throw TypeError
  end.

(** The comparator of lines 182-191. *)
Definition compareRows (isAscending : bool) (column : nat) (a b : Tr)
  : completion Z :=
  aValue ← cellText column a;
  bValue ← cellText column b;
  if isAscending
  then Normal (localeCompare bValue aValue)
  else Normal (localeCompare aValue bValue).

(** Lines 171 and 182-194 on the children of a body: collect the rows,
    sort the array, re-append every row in the sorted order. *)
Definition sortBody (isAscending : bool) (column : nat) (children : list Tr)
  : completion (list Tr) :=
  let rows := querySelectorAll_tr children in
  sorted ← JSArray.sort (compareRows isAscending column) rows;
  Normal (foldl appendChild children sorted).

(** The click handler on the [i]-th sortable header. *)
Definition click (d : Document) (i : nat) : Document * completion unit :=
  match sortableHeaders d !! i with
  | None => (d, Normal tt)
  | Some this =>
      match findBody d this with
      | None => (d, Throw TypeError)
      | Some (t, children) =>
          let column := cellIndex this in
          let isAscending := contains (classList this) TableSorter.sort_asc in
          let hs := TableSorter.updateMarkers isAscending i (sortableHeaders d) in
          match sortBody isAscending column children with
          | Throw e =>
              ({| sortableHeaders := hs; tables := tables d |}, Throw e)
          | Normal children' =>
              ({| sortableHeaders := hs;
                  tables := <[t := {| tbody := Some children' |}]> (tables d) |},
               Normal tt)
          end
      end
  end.

End Handler.

(** The sort key of a row, where the row has the cell. *)
Definition key (column : nat) (row : Tr) : string :=
  default EmptyString ((fun td => trim (textContent td)) <$> cells row !! column).

Definition ascending (localeCompare : string -> string -> Z) (column : nat)
  (a b : Tr) : Z := localeCompare (key column a) (key column b).

Definition descending (localeCompare : string -> string -> Z) (column : nat)
  (a b : Tr) : Z := localeCompare (key column b) (key column a).

Definition rowOrder (localeCompare : string -> string -> Z) (isAscending : bool)
  (column : nat) : Tr -> Tr -> Z :=
  if isAscending then descending localeCompare column
  else ascending localeCompare column.

(** The rows, tables and documents of [DOM], whose cells hold text
    only, as rows, tables and documents of this model. *)
Definition ofRow (row : Row) : Tr :=
  tr (DOM.row_id row) ((fun s => [text s]) <$> DOM.cells row).

Definition ofTable (tbl : DOM.Table) : Table :=
  {| tbody := match DOM.tbody tbl with
              | Some rows => Some (ofRow <$> rows)
              | None => None
              end |}.

Definition ofDocument (d : DOM.Document) : Document :=
  {| sortableHeaders := DOM.sortableHeaders d;
     tables := ofTable <$> DOM.tables d |}.

End Nested.

(** ** Sample documents with nested tables *)

Module NestedSamples.
Import DOM Nested.

Definition header : Header :=
  {| classList := ["sortable"]; cellIndex := 0; closestTable := Some 0 |}.

(** The row [10] reads "b"; it stands in a table inside the cell of row
    [0], which reads "ba"; row [1] reads "az". *)
Definition inner : Tr := tr 10 [[text "b"]].

Definition enclosing : list Tr :=
  [ tr 0 [[table [inner]; text "a"]]; tr 1 [[text "az"]] ].

Definition enclosingDoc : Document :=
  {| sortableHeaders := [header]; tables := [ {| tbody := Some enclosing |} ] |}.

(** Flat rows reading "2", "10", "1", and flat rows reading "01", "1". *)
Definition numbers : list Tr :=
  [ tr 0 [[text "2"]]; tr 1 [[text "10"]]; tr 2 [[text "1"]] ].

Definition numbersDoc : Document :=
  {| sortableHeaders := [header]; tables := [ {| tbody := Some numbers |} ] |}.

Definition zeros : list Tr := [ tr 0 [[text "01"]]; tr 1 [[text "1"]] ].

Definition zerosDoc : Document :=
  {| sortableHeaders := [header]; tables := [ {| tbody := Some zeros |} ] |}.

(** Flat rows with ties: "2", "1", "02", "01". *)
Definition ties : list Tr :=
  [ tr 0 [[text "2"]]; tr 1 [[text "1"]]; tr 2 [[text "02"]]; tr 3 [[text "01"]] ].

Definition tiesDoc : Document :=
  {| sortableHeaders := [header]; tables := [ {| tbody := Some ties |} ] |}.

End NestedSamples.

(** * Properties *)

(** ** Number input formatting *)

Section NumberInputFacts.
Import JSString NumberInput.

Lemma all_keepOnly keep s : all keep (keepOnly keep s) = true.
Proof.
  induction s as [|c s IH]; simpl; [done|].
  destruct (keep c) eqn:E; simpl; [by rewrite E|done].
Qed.

Lemma split_dot_length s : List.length (split_dot s) = S (count "." s).
Proof.
  induction s as [|c s IH]; simpl; [done|].
  destruct (Ascii.eqb c "."); simpl; [by rewrite IH|].
  destruct (split_dot s); simpl in *; lia.
Qed.

Lemma join_split_dot s : join_empty (split_dot s) = dropDots s.
Proof.
  induction s as [|c s IH]; simpl; [done|].
  destruct (Ascii.eqb c "."); simpl; [done|].
  destruct (split_dot s) as [|p ps] eqn:E; simpl in *; by rewrite <- IH.
Qed.

Lemma keepFirstDot_id s : count "." s <= 1 -> keepFirstDot s = s.
Proof.
  induction s as [|c s IH]; simpl; [done|].
  destruct (Ascii.eqb c ".") eqn:E; simpl; intros H.
  - f_equal. clear IH. induction s as [|c' s IH]; simpl in *; [done|].
    destruct (Ascii.eqb c' "."); simpl in *; [lia|]. f_equal. apply IH. lia.
  - f_equal. apply IH. lia.
Qed.

Lemma rejoin_split_dot s :
  1 <= count "." s ->
  hd EmptyString (split_dot s) ++ "." ++ join_empty (tl (split_dot s)) = keepFirstDot s.
Proof.
  induction s as [|c s IH]; simpl; [lia|].
  destruct (Ascii.eqb c ".") eqn:E; simpl; intros H.
  - apply Ascii.eqb_eq in E as ->. by rewrite join_split_dot.
  - specialize (IH ltac:(lia)).
    destruct (split_dot s) as [|p ps]; simpl in *; by rewrite <- IH.
Qed.

Lemma onInput_keepFirstDot value :
  onInput value = keepFirstDot (stripNonNumeric value).
Proof.
  unfold onInput. rewrite split_dot_length.
  destruct (2 <? _)%nat eqn:E.
  - apply Nat.ltb_lt in E. apply rejoin_split_dot. lia.
  - apply Nat.ltb_ge in E. symmetry. apply keepFirstDot_id. lia.
Qed.

Lemma count_dropDots s : count "." (dropDots s) = 0.
Proof.
  induction s as [|c s IH]; simpl; [done|].
  destruct (Ascii.eqb c ".") eqn:E; simpl; [done|]. by rewrite E.
Qed.

Lemma count_keepFirstDot s : count "." (keepFirstDot s) <= 1.
Proof.
  induction s as [|c s IH]; simpl; [lia|].
  destruct (Ascii.eqb c ".") eqn:E; simpl; rewrite E; [rewrite count_dropDots|]; lia.
Qed.

Lemma all_dropDots p s : all p s = true -> all p (dropDots s) = true.
Proof.
  induction s as [|c s IH]; simpl; [done|].
  intros [? ?]%andb_true_iff. destruct (Ascii.eqb c "."); simpl; [auto|].
  apply andb_true_iff; auto.
Qed.

Lemma all_keepFirstDot p s : all p s = true -> all p (keepFirstDot s) = true.
Proof.
  induction s as [|c s IH]; simpl; [done|].
  intros [? ?]%andb_true_iff.
  destruct (Ascii.eqb c "."); simpl; apply andb_true_iff; auto using all_dropDots.
Qed.

(** C10: whatever the field holds, after the handler its value is the
    stripped value with every dot after the first removed; it consists
    of the characters 0-9 and '.' only, and holds at most one '.'. *)
Theorem onInput_sanitized value :
  onInput value = keepFirstDot (stripNonNumeric value)
  ∧ all numericChar (onInput value) = true
  ∧ count "." (onInput value) <= 1.
Proof.
  rewrite onInput_keepFirstDot. split_and!; [done| |apply count_keepFirstDot].
  apply all_keepFirstDot, all_keepOnly.
Qed.

End NumberInputFacts.

(** ** Sorting *)

Section SortFacts.
Import JSArray.
Local Open Scope list_scope.
Context {A : Type}.
Implicit Types (l s : list A) (cmp : A -> A -> Z).

Lemma insert_Permutation comparefn x l r :
  insert comparefn x l = Normal r -> r ≡ₚ x :: l.
Proof.
  revert r. induction l as [|y l IH]; simpl; intros r H.
  - by inversion H.
  - destruct (comparefn x y) as [v|]; simpl in H; [|done].
    destruct (v <=? 0)%Z; [by inversion H|].
    destruct (insert comparefn x l) as [r'|]; simpl in H; [|done].
    inversion H; subst. rewrite (IH r' eq_refl). apply Permutation_swap.
Qed.

Lemma sort_Permutation comparefn l s :
  sort comparefn l = Normal s -> s ≡ₚ l.
Proof.
  revert s. induction l as [|x l IH]; simpl; intros s H.
  - by inversion H.
  - destruct (sort comparefn l) as [s'|]; simpl in H; [|done].
    apply insert_Permutation in H. by rewrite H, (IH s' eq_refl).
Qed.

Lemma insert_by_Permutation cmp x l : insert_by cmp x l ≡ₚ x :: l.
Proof.
  induction l as [|y l IH]; simpl; [done|].
  destruct (cmp x y <=? 0)%Z; [done|]. rewrite IH. apply Permutation_swap.
Qed.

Lemma sort_by_Permutation cmp l : sort_by cmp l ≡ₚ l.
Proof.
  induction l as [|x l IH]; simpl; [done|]. by rewrite insert_by_Permutation, IH.
Qed.

(** Where the comparator does not throw, the sort is the pure one. *)
Lemma insert_total comparefn cmp x l :
  (forall y, y ∈ l -> comparefn x y = Normal (cmp x y)) ->
  insert comparefn x l = Normal (insert_by cmp x l).
Proof.
  induction l as [|y l IH]; simpl; intros H; [done|].
  rewrite (H y) by set_solver. simpl.
  destruct (cmp x y <=? 0)%Z; [done|].
  rewrite IH by (intros; apply H; set_solver). done.
Qed.

Lemma sort_total comparefn cmp l :
  (forall x y, x ∈ l -> y ∈ l -> comparefn x y = Normal (cmp x y)) ->
  sort comparefn l = Normal (sort_by cmp l).
Proof.
  induction l as [|x l IH]; simpl; intros H; [done|].
  rewrite IH by (intros; apply H; set_solver). simpl.
  apply insert_total. intros y Hy. apply H; [set_solver|].
  rewrite sort_by_Permutation in Hy. set_solver.
Qed.


(** Consequences of consistency. *)
Lemma consistent_gt_lt cmp a b :
  consistent cmp -> (cmp a b > 0)%Z -> (cmp b a < 0)%Z.
Proof.
  intros C H. destruct (Z.lt_trichotomy (cmp b a) 0) as [?|[E|G]]; [done| |].
  - apply (cf_sym cmp C) in E. lia.
  - pose proof (cf_trans_gt cmp C a b a H ltac:(lia)).
    pose proof (cf_refl cmp C a). lia.
Qed.

Lemma consistent_lt_gt cmp a b :
  consistent cmp -> (cmp a b < 0)%Z -> (cmp b a > 0)%Z.
Proof.
  intros C H. destruct (Z.lt_trichotomy (cmp b a) 0) as [L|[E|G]]; [| |lia].
  - pose proof (cf_trans_lt cmp C a b a H L).
    pose proof (cf_refl cmp C a). lia.
  - apply (cf_sym cmp C) in E. lia.
Qed.

Lemma consistent_flip cmp : consistent cmp -> consistent (fun a b => cmp b a).
Proof.
  intros C. split; simpl.
  - apply (cf_refl cmp C).
  - intros a b. apply (cf_sym cmp C).
  - intros a b c H1 H2. apply (cf_trans_eq cmp C c b a); done.
  - intros a b c H1 H2.
    apply (consistent_gt_lt cmp); [done|].
    apply (cf_trans_gt cmp C a b c); apply Z.lt_gt, Z.gt_lt, (consistent_lt_gt cmp); done.
  - intros a b c H1 H2.
    apply (consistent_lt_gt cmp); [done|].
    apply (cf_trans_lt cmp C a b c); apply (consistent_gt_lt cmp); done.
Qed.

Lemma insert_by_Sorted cmp x l :
  consistent cmp -> Sorted (before cmp) l -> Sorted (before cmp) (insert_by cmp x l).
Proof.
  intros C. induction l as [|y l IH]; simpl; intros HS.
  - by repeat constructor.
  - destruct (cmp x y <=? 0)%Z eqn:E.
    + apply Z.leb_le in E. constructor; [done|]. constructor. exact E.
    + apply Z.leb_gt in E. apply Sorted_inv in HS as [HS Hhd].
      constructor; [by apply IH|].
      destruct l as [|z l]; simpl.
      * constructor. unfold before.
        pose proof (consistent_gt_lt cmp x y C). lia.
      * destruct (cmp x z <=? 0)%Z.
        -- constructor. unfold before.
           pose proof (consistent_gt_lt cmp x y C). lia.
        -- constructor. by inversion Hhd.
Qed.

Lemma sort_by_Sorted cmp l : consistent cmp -> Sorted (before cmp) (sort_by cmp l).
Proof.
  intros C. induction l as [|x l IH]; simpl; [constructor|by apply insert_by_Sorted].
Qed.

(** A stable sort leaves a sorted array as it is. *)
Lemma sort_by_sorted_id cmp l : Sorted (before cmp) l -> sort_by cmp l = l.
Proof.
  induction l as [|x l IH]; simpl; [done|].
  intros [HS Hhd]%Sorted_inv. rewrite IH by done.
  destruct Hhd as [|y l' Hxy]; simpl; [done|].
  unfold before in Hxy. by apply Z.leb_le in Hxy as ->.
Qed.

Lemma sort_by_idempotent cmp l :
  consistent cmp -> sort_by cmp (sort_by cmp l) = sort_by cmp l.
Proof. intros C. by apply sort_by_sorted_id, sort_by_Sorted. Qed.

(** Without ties the result is strictly increasing. *)
Lemma insert_by_strict cmp x l :
  consistent cmp ->
  (forall y, y ∈ l -> cmp x y ≠ 0%Z) ->
  StronglySorted (strictlyBefore cmp) l ->
  StronglySorted (strictlyBefore cmp) (insert_by cmp x l).
Proof.
  intros C. induction l as [|y l IH]; simpl; intros Hne HS.
  - by repeat constructor.
  - apply StronglySorted_inv in HS as [HS Hy].
    assert (cmp x y ≠ 0%Z) as Hxy by (apply Hne; set_solver).
    destruct (cmp x y <=? 0)%Z eqn:E.
    + apply Z.leb_le in E. assert (cmp x y < 0)%Z as Hlt by lia.
      constructor; [by constructor|].
      constructor; [done|].
      eapply Forall_impl; [exact Hy|]. intros z Hz.
      by apply (cf_trans_lt cmp C x y z).
    + apply Z.leb_gt in E.
      constructor; [apply IH; [|done]; intros; apply Hne; set_solver|].
      rewrite insert_by_Permutation. constructor; [|done].
      apply (consistent_gt_lt cmp); [done|lia].
Qed.

Lemma sort_by_strict cmp l :
  consistent cmp -> NoDup l ->
  (forall a b, a ∈ l -> b ∈ l -> cmp a b = 0%Z -> a = b) ->
  StronglySorted (strictlyBefore cmp) (sort_by cmp l).
Proof.
  intros C. induction l as [|x l IH]; simpl; intros ND Hinj; [constructor|].
  apply NoDup_cons in ND as [Hx ND].
  apply insert_by_strict; [done| |apply IH; [done|intros; apply Hinj; set_solver]].
  intros y Hy E. rewrite sort_by_Permutation in Hy.
  apply Hinj in E; [subst; done|set_solver|set_solver].
Qed.

(** Sorting a strictly increasing array with the operands exchanged
    reverses it. *)
Lemma insert_by_last cmp x l :
  (forall y, y ∈ l -> (cmp x y > 0)%Z) -> insert_by cmp x l = l ++ [x].
Proof.
  induction l as [|y l IH]; simpl; intros H; [done|].
  assert (cmp x y > 0)%Z as Hxy by (apply H; set_solver).
  apply Z.gt_lt, Z.leb_gt in Hxy as ->.
  rewrite IH by (intros; apply H; set_solver). done.
Qed.

Lemma sort_by_flip_reverse cmp l :
  consistent cmp -> StronglySorted (strictlyBefore cmp) l ->
  sort_by (fun a b => cmp b a) l = reverse l.
Proof.
  intros C. induction l as [|x l IH]; simpl; [done|].
  intros [HS Hx]%StronglySorted_inv. rewrite IH by done.
  rewrite reverse_cons. apply insert_by_last.
  intros y Hy. rewrite elem_of_reverse in Hy. rewrite Forall_forall in Hx.
  cbv beta. apply (consistent_lt_gt cmp); [done|]. by apply Hx.
Qed.

Lemma StronglySorted_reverse (R : relation A) l :
  StronglySorted R l -> StronglySorted (flip R) (reverse l).
Proof.
  induction 1 as [|x l HS IH Hx]; [constructor|].
  rewrite reverse_cons. apply StronglySorted_app. split_and!; [|done|by repeat constructor].
  intros y z Hy Hz. rewrite elem_of_reverse in Hy.
  apply list_elem_of_singleton in Hz as ->.
  rewrite Forall_forall in Hx. by apply Hx.
Qed.

End SortFacts.

(** ** The sample collator *)

Section CollatorFacts.
Import JSString JSArray Collator.
Local Open Scope list_scope.

Lemma lex_refl k : lex k k = Eq.
Proof. induction k as [|x k IH]; simpl; [done|]. by rewrite N.compare_refl. Qed.

Lemma lex_eq k1 k2 : lex k1 k2 = Eq -> k1 = k2.
Proof.
  revert k2. induction k1 as [|x k1 IH]; intros [|y k2]; simpl; try done.
  destruct (N.compare_spec x y); try done. intros. subst. f_equal. by apply IH.
Qed.

Lemma lex_antisym k1 k2 : lex k2 k1 = CompOpp (lex k1 k2).
Proof.
  revert k2. induction k1 as [|x k1 IH]; intros [|y k2]; simpl; try done.
  rewrite (N.compare_antisym x y). destruct (x ?= y)%N; simpl; auto.
Qed.

Lemma lex_trans_lt k1 k2 k3 : lex k1 k2 = Lt -> lex k2 k3 = Lt -> lex k1 k3 = Lt.
Proof.
  revert k2 k3. induction k1 as [|x k1 IH]; intros [|y k2] [|z k3]; simpl; try done.
  destruct (x ?= y)%N eqn:E1; try done; destruct (y ?= z)%N eqn:E2; try done;
    intros H1 H2.
  - apply N.compare_eq_iff in E1 as ->. apply N.compare_eq_iff in E2 as ->.
    rewrite N.compare_refl. eauto.
  - apply N.compare_eq_iff in E1 as ->. by rewrite E2.
  - apply N.compare_eq_iff in E2 as <-. by rewrite E1.
  - apply N.compare_lt_iff in E1. apply N.compare_lt_iff in E2.
    by rewrite (proj2 (N.compare_lt_iff x z) (N.lt_trans _ _ _ E1 E2)).
Qed.

Lemma numericCollate_lt a b :
  (numericCollate a b < 0)%Z <-> lex (collationKey a) (collationKey b) = Lt.
Proof. unfold numericCollate. destruct (lex _ _); split; (done || lia). Qed.

Lemma numericCollate_gt a b :
  (numericCollate a b > 0)%Z <-> lex (collationKey b) (collationKey a) = Lt.
Proof.
  unfold numericCollate. rewrite (lex_antisym (collationKey a)).
  destruct (lex _ _); simpl; split; (done || lia).
Qed.

Lemma numericCollate_eq a b :
  numericCollate a b = 0%Z <-> collationKey a = collationKey b.
Proof.
  unfold numericCollate. split.
  - destruct (lex _ _) eqn:E; try done. intros _. by apply lex_eq.
  - intros ->. by rewrite lex_refl.
Qed.

Lemma numericCollate_consistent : consistent numericCollate.
Proof.
  split.
  - intros a. by apply numericCollate_eq.
  - intros a b. rewrite !numericCollate_eq. done.
  - intros a b c. rewrite !numericCollate_eq. congruence.
  - intros a b c. rewrite !numericCollate_lt. apply lex_trans_lt.
  - intros a b c. rewrite !numericCollate_gt. intros H1 H2. by apply (lex_trans_lt _ _ _ H2).
Qed.




End CollatorFacts.

(** ** The DOM operations *)

Section DOMFacts.
Import DOM.
Local Open Scope list_scope.

Lemma filter_all {A} (P : A -> Prop) `{forall x, Decision (P x)} (l : list A) :
  (forall x, x ∈ l -> P x) -> filter P l = l.
Proof.
  induction l as [|x l IH]; intros HP; [done|].
  rewrite filter_cons_True by (apply HP; left).
  f_equal. apply IH. intros y Hy. apply HP. by right.
Qed.

Lemma filter_none {A} (P : A -> Prop) `{forall x, Decision (P x)} (l : list A) :
  (forall x, x ∈ l -> ¬ P x) -> filter P l = [].
Proof.
  induction l as [|x l IH]; intros HP; [done|].
  rewrite filter_cons_False by (apply HP; left).
  apply IH. intros y Hy. apply HP. by right.
Qed.

Lemma contains_true cl token : contains cl token = true <-> token ∈ cl.
Proof. unfold contains. apply bool_decide_eq_true. Qed.

Lemma contains_false cl token : contains cl token = false <-> token ∉ cl.
Proof. unfold contains. apply bool_decide_eq_false. Qed.

Lemma elem_of_add token token' cl :
  token' ∈ add token cl <-> (token' = token ∨ token' ∈ cl).
Proof.
  unfold add. destruct (contains cl token) eqn:E.
  - apply contains_true in E. split; [by right|]. by intros [->|?].
  - rewrite elem_of_app, list_elem_of_singleton. tauto.
Qed.

Lemma elem_of_remove tokens token cl :
  token ∈ remove tokens cl <-> ((token ∉ tokens) ∧ token ∈ cl).
Proof. unfold remove. by rewrite list_elem_of_filter. Qed.

(** Appending the rows of [s] one after the other moves them, in that
    order, behind the children that are not in [s]. *)
Lemma foldl_appendChild (s children : list Row) :
  NoDup (row_id <$> s) ->
  foldl appendChild children s
  = filter (fun r => row_id r ∉ row_id <$> s) children ++ s.
Proof.
  revert children. induction s as [|x s IH]; intros children ND; simpl.
  - rewrite app_nil_r. symmetry. apply filter_all.
    intros r _ Hr. by apply elem_of_nil in Hr.
  - apply NoDup_cons in ND as [Hx ND]. rewrite IH by done.
    unfold appendChild. rewrite filter_app, list_filter_filter.
    rewrite filter_cons_True, filter_nil by done.
    rewrite <- app_assoc. simpl. f_equal.
    apply list_filter_iff. intros r. rewrite !elem_of_cons. tauto.
Qed.

Lemma reappend_sorted (rows sorted : list Row) :
  NoDup (row_id <$> rows) -> sorted ≡ₚ rows ->
  foldl appendChild rows sorted = sorted.
Proof.
  intros ND HP. rewrite foldl_appendChild by (by rewrite HP).
  rewrite filter_none; [done|].
  intros r Hr Hn. apply Hn.
  apply list_elem_of_fmap. exists r. by rewrite HP.
Qed.

End DOMFacts.

(** ** The click handler *)

Section HandlerFacts.
Import JSString JSArray DOM TableSorter.
Local Open Scope list_scope.

Variable localeCompare : string -> string -> Z.

Lemma markers_distinct : sort_asc ≠ sort_desc.
Proof. done. Qed.

Lemma cellText_key column row :
  hasCell column row -> cellText column row = Normal (key column row).
Proof. intros [text H]. unfold cellText, key. by rewrite H. Qed.

Lemma compareRows_total isAscending column a b :
  hasCell column a -> hasCell column b ->
  compareRows localeCompare isAscending column a b
  = Normal (rowOrder localeCompare isAscending column a b).
Proof.
  intros Ha Hb. unfold compareRows. rewrite !cellText_key by done. simpl.
  by destruct isAscending.
Qed.


(** The rows come back as [sort] ordered them. *)
Lemma sortBody_sorted isAscending column rows rows' :
  NoDup (row_id <$> rows) ->
  sortBody localeCompare isAscending column rows = Normal rows' <->
  sort (compareRows localeCompare isAscending column) rows = Normal rows'.
Proof.
  intros ND. unfold sortBody.
  destruct (sort _ rows) as [sorted|] eqn:E; simpl; [|done].
  apply sort_Permutation in E. by rewrite reappend_sorted.
Qed.

Lemma sortBody_Permutation isAscending column rows rows' :
  NoDup (row_id <$> rows) ->
  sortBody localeCompare isAscending column rows = Normal rows' -> rows' ≡ₚ rows.
Proof. intros ND H. apply sortBody_sorted in H; [|done]. by apply sort_Permutation in H. Qed.

Lemma sortBody_total isAscending column rows :
  NoDup (row_id <$> rows) -> Forall (hasCell column) rows ->
  sortBody localeCompare isAscending column rows
  = Normal (sort_by (rowOrder localeCompare isAscending column) rows).
Proof.
  intros ND Hc. apply sortBody_sorted; [done|]. apply sort_total.
  rewrite Forall_forall in Hc. intros. apply compareRows_total; auto.
Qed.

Lemma updateMarkers_lookup isAscending i hs h :
  hs !! i = Some h ->
  updateMarkers isAscending i hs !! i
  = Some (withClassList (add (if isAscending then sort_desc else sort_asc))
            (withClassList (remove [sort_asc; sort_desc]) h)).
Proof.
  intros H. unfold updateMarkers.
  by rewrite list_lookup_alter_eq, list_lookup_fmap, H.
Qed.

Lemma updateMarkers_lookup_ne isAscending i j hs :
  j ≠ i ->
  updateMarkers isAscending i hs !! j
  = withClassList (remove [sort_asc; sort_desc]) <$> hs !! j.
Proof.
  intros H. unfold updateMarkers.
  by rewrite list_lookup_alter_ne, list_lookup_fmap.
Qed.

Lemma findBody_Some d h t rows :
  findBody d h = Some (t, rows) <->
  closestTable h = Some t ∧ exists tbl, tables d !! t = Some tbl ∧ tbody tbl = Some rows.
Proof.
  unfold findBody. split.
  - intros H. destruct (closestTable h) as [t'|]; simpl in H; [|done].
    destruct (tables d !! t') as [tbl|] eqn:Et; simpl in H; [|done].
    destruct (tbody tbl) as [rows0|] eqn:Eb; simpl in H; [|done].
    inversion H; subst. eauto.
  - intros (-> & tbl & Ht & Hb). simpl. rewrite Ht. simpl. by rewrite Hb.
Qed.

Lemma findBody_bodyRows d h t rows :
  findBody d h = Some (t, rows) -> bodyRows d t = rows.
Proof.
  intros (_ & tbl & Ht & Hb)%findBody_Some. unfold bodyRows. by rewrite Ht; simpl; rewrite Hb.
Qed.

Lemma wellFormed_rows d h t rows :
  wellFormed d -> findBody d h = Some (t, rows) -> NoDup (row_id <$> rows).
Proof.
  intros WF (_ & tbl & Ht & Hb)%findBody_Some.
  unfold wellFormed in WF. rewrite Forall_lookup in WF.
  specialize (WF t tbl Ht). unfold distinctRows in WF. by rewrite Hb in WF.
Qed.

(** The headers after a click that found the body, whether or not the
    sort completed. *)
Lemma click_headers d i h t rows :
  sortableHeaders d !! i = Some h -> findBody d h = Some (t, rows) ->
  sortableHeaders (click localeCompare d i).1
  = updateMarkers (contains (classList h) sort_asc) i (sortableHeaders d).
Proof.
  intros Hh Hb. unfold click. rewrite Hh, Hb. by destruct (sortBody _ _ _ _).
Qed.

(** A click on rows that all have the cell sorts them. *)
Lemma click_total d i h t rows :
  sortableHeaders d !! i = Some h -> findBody d h = Some (t, rows) ->
  NoDup (row_id <$> rows) -> Forall (hasCell (cellIndex h)) rows ->
  click localeCompare d i =
  ({| sortableHeaders :=
        updateMarkers (contains (classList h) sort_asc) i (sortableHeaders d);
      tables :=
        <[t := {| tbody := Some (sort_by (rowOrder localeCompare
                                   (contains (classList h) sort_asc) (cellIndex h)) rows) |}]>
          (tables d) |}, Normal tt).
Proof.
  intros Hh Hb ND Hc. unfold click. rewrite Hh, Hb.
  by rewrite sortBody_total.
Qed.


Lemma bodyRows_insert_ne hs tbls t t' tbl :
  t' ≠ t ->
  bodyRows {| sortableHeaders := hs; tables := <[t := tbl]> tbls |} t'
  = bodyRows {| sortableHeaders := hs; tables := tbls |} t'.
Proof. intros Ht. unfold bodyRows. simpl. by rewrite list_lookup_insert_ne. Qed.

Lemma markers_removed cl :
  filter (fun t => t ∈ [sort_asc; sort_desc]) (remove [sort_asc; sort_desc] cl) = [].
Proof.
  apply filter_none. intros tok Htok Hin.
  apply elem_of_remove in Htok as [Hn _]. done.
Qed.

Lemma markers_cleared h :
  markers (withClassList (remove [sort_asc; sort_desc]) h) = 0.
Proof. unfold markers. simpl. by rewrite markers_removed. Qed.

Lemma markers_marked (isAscending : bool) h :
  markers (withClassList (add (if isAscending then sort_desc else sort_asc))
             (withClassList (remove [sort_asc; sort_desc]) h)) = 1.
Proof.
  unfold markers. simpl. set (tok := if isAscending then sort_desc else sort_asc).
  assert (tok ∈ [sort_asc; sort_desc]) as Htok.
  { unfold tok. destruct isAscending; [right; left|left]. }
  unfold add.
  destruct (contains _ tok) eqn:E.
  - apply contains_true, elem_of_remove in E as [E _]. done.
  - by rewrite filter_app, markers_removed, filter_cons_True, filter_nil.
Qed.

(** C1: for any two rows that have a cell in the clicked column, the
    comparator of the click compares the trimmed texts of those cells
    with [localeCompare]; the first row's text is the receiver when the
    direction the click resolves to is ascending, the second row's when it
    is descending. *)
Theorem compareRows_by_new_direction h a b ta tb :
  cells a !! cellIndex h = Some ta ->
  cells b !! cellIndex h = Some tb ->
  compareRows localeCompare (contains (classList h) sort_asc) (cellIndex h) a b
  = Normal (match toggle (sortState h) with
            | Descending => localeCompare (trim tb) (trim ta)
            | _ => localeCompare (trim ta) (trim tb)
            end).
Proof.
  intros Ha Hb. unfold compareRows, cellText, sortState. rewrite Ha, Hb. simpl.
  destruct (contains (classList h) sort_asc); simpl; [done|].
  by destruct (contains (classList h) sort_desc).
Qed.

(** When the clicked header has no enclosing table, or the table has no
    body, the handler does not return normally: it throws a TypeError
    and leaves the document as it was. *)
Lemma click_without_body_throws d i h :
  sortableHeaders d !! i = Some h ->
  findBody d h = None ->
  click localeCompare d i = (d, Throw TypeError).
Proof. intros Hh Hb. unfold click. by rewrite Hh, Hb. Qed.

(** C4: after a click on a sortable header whose table and body exist,
    the clicked header carries exactly one direction marker and every
    other sortable header carries none. *)
Theorem click_marks_one_header d i h t rows :
  sortableHeaders d !! i = Some h ->
  findBody d h = Some (t, rows) ->
  (exists h', sortableHeaders (click localeCompare d i).1 !! i = Some h' ∧ markers h' = 1)
  ∧ (forall j hj, j ≠ i ->
       sortableHeaders (click localeCompare d i).1 !! j = Some hj -> markers hj = 0).
Proof.
  intros Hh Hb. rewrite (click_headers d i h t rows) by done. split.
  - rewrite (updateMarkers_lookup _ _ _ h) by done.
    eexists. split; [done|]. apply markers_marked.
  - intros j hj Hj. rewrite updateMarkers_lookup_ne by done.
    destruct (sortableHeaders d !! j) as [h0|]; simpl; [|done].
    intros [= <-]. apply markers_cleared.
Qed.

(** C5: the direction a click applies to its header is the opposite of
    the one the header carried: unset and descending become ascending,
    ascending becomes descending. *)
Theorem click_toggles_direction d i h t rows :
  sortableHeaders d !! i = Some h ->
  findBody d h = Some (t, rows) ->
  exists h', sortableHeaders (click localeCompare d i).1 !! i = Some h'
             ∧ sortState h' = toggle (sortState h).
Proof.
  intros Hh Hb. rewrite (click_headers d i h t rows) by done.
  rewrite (updateMarkers_lookup _ _ _ h) by done.
  eexists. split; [done|]. unfold sortState. simpl.
  destruct (contains (classList h) sort_asc) eqn:E.
  - assert (contains (add sort_desc (remove [sort_asc; sort_desc] (classList h))) sort_asc
            = false) as ->.
    { apply contains_false. rewrite elem_of_add, elem_of_remove.
      intros [?|[Hn _]]; [done|]. apply Hn. left. }
    assert (contains (add sort_desc (remove [sort_asc; sort_desc] (classList h))) sort_desc
            = true) as ->; [|done].
    apply contains_true, elem_of_add. by left.
  - assert (contains (add sort_asc (remove [sort_asc; sort_desc] (classList h))) sort_asc
            = true) as ->.
    { apply contains_true, elem_of_add. by left. }
    by destruct (contains (classList h) sort_desc).
Qed.

(** C8: a click on a header of a table whose body has no rows returns
    normally and leaves every table as it was; the body still has no
    rows. *)
Theorem click_on_empty_body d i h t :
  sortableHeaders d !! i = Some h ->
  findBody d h = Some (t, []) ->
  (click localeCompare d i).2 = Normal tt
  ∧ tables (click localeCompare d i).1 = tables d
  ∧ List.length (bodyRows (click localeCompare d i).1 t) = 0.
Proof.
  intros Hh Hb. pose proof (findBody_bodyRows _ _ _ _ Hb) as Hr.
  unfold click. rewrite Hh, Hb. simpl.
  apply findBody_Some in Hb as (_ & [[rows|]] & Ht & Hrows); simpl in Hrows; [|done].
  inversion Hrows; subst.
  assert (<[t := {| tbody := Some [] |}]> (tables d) = tables d) as Hid
    by by apply list_insert_id.
  split_and!; [done|done|].
  unfold bodyRows in *. simpl. by rewrite Hid, Hr.
Qed.


End HandlerFacts.

(** ** The properties on the sample documents *)

Section Instances.
Import JSString JSArray DOM TableSorter Collator Samples.
Local Open Scope list_scope.

Ltac by_computation := apply (bool_decide_unpack _); vm_compute; exact I.

(** C3, on the code: a click on a sortable header that is outside any
    table, or whose table has no body, throws a TypeError instead of
    doing nothing, whatever the collation; the document is unchanged. *)
Theorem click_throws_without_table_or_body (localeCompare : string -> string -> Z) :
  click localeCompare noTable 0 = (noTable, Throw TypeError)
  ∧ click localeCompare noBody 0 = (noBody, Throw TypeError).
Proof.
  split; eapply click_without_body_throws; reflexivity.
Qed.

(** The theorems at the sample documents, with the sample collator. *)

Lemma compareRows_by_new_direction_witness :
  compareRows numericCollate
    (contains (classList (plainHeader 0 (Some 0))) sort_asc)
    (cellIndex (plainHeader 0 (Some 0)))
    {| row_id := 0; cells := [" 2"] |} {| row_id := 1; cells := ["10 "] |}
  = Normal (match toggle (sortState (plainHeader 0 (Some 0))) with
            | Descending => numericCollate (trim "10 ") (trim " 2")
            | _ => numericCollate (trim " 2") (trim "10 ")
            end).
Proof.
  apply (compareRows_by_new_direction numericCollate (plainHeader 0 (Some 0))
           {| row_id := 0; cells := [" 2"] |} {| row_id := 1; cells := ["10 "] |});
    reflexivity.
Defined.


Lemma click_marks_one_header_witness :
  (exists h', sortableHeaders (click numericCollate scoresMarked 0).1 !! 0 = Some h'
              ∧ markers h' = 1)
  ∧ (forall j hj, j ≠ 0 ->
       sortableHeaders (click numericCollate scoresMarked 0).1 !! j = Some hj ->
       markers hj = 0).
Proof.
  apply (click_marks_one_header numericCollate scoresMarked 0 (plainHeader 0 (Some 0)) 0
           (bodyRows scoresMarked 0));
    reflexivity.
Defined.

Lemma click_toggles_direction_witness :
  exists h', sortableHeaders (click numericCollate scoresMarked 1).1 !! 1 = Some h'
             ∧ sortState h'
               = toggle (sortState {| classList := ["sortable"; sort_desc];
                                      cellIndex := 1; closestTable := Some 0 |}).
Proof.
  apply (click_toggles_direction numericCollate scoresMarked 1
           {| classList := ["sortable"; sort_desc]; cellIndex := 1; closestTable := Some 0 |}
           0 (bodyRows scoresMarked 0));
    reflexivity.
Defined.

Lemma click_on_empty_body_witness :
  (click numericCollate emptyBody 0).2 = Normal tt
  ∧ tables (click numericCollate emptyBody 0).1 = tables emptyBody
  ∧ List.length (bodyRows (click numericCollate emptyBody 0).1 0) = 0.
Proof.
  apply (click_on_empty_body numericCollate emptyBody 0 (plainHeader 0 (Some 0)) 0);
    reflexivity.
Defined.

(** Numerals that denote the same number tie under every collation with
    numeric ordering, so two clicks leave the rows "01", "1" in place. *)
Lemma leading_zero_tie (localeCompare : string -> string -> Z) :
  numericOrdering localeCompare ->
  localeCompare "01" "1" = 0%Z ∧ localeCompare "1" "01" = 0%Z.
Proof.
  intros H.
  assert (numeral "1") as N1 by (split_and!; [done|done|simpl; lia]).
  assert (numeral "01") as N01 by (split_and!; [done|done|simpl; lia]).
  split; apply Z.compare_eq_iff; by rewrite H.
Qed.

Lemma leading_zero_clicks (localeCompare : string -> string -> Z) :
  numericOrdering localeCompare ->
  let d1 := (click localeCompare leadingZero 0).1 in
  let d2 := (click localeCompare d1 0).1 in
  bodyRows d1 0 = bodyRows leadingZero 0 ∧ bodyRows d2 0 = bodyRows leadingZero 0.
Proof.
  intros H d1 d2. destruct (leading_zero_tie _ H) as [T1 T2].
  set (rows := bodyRows leadingZero 0).
  assert (NoDup (row_id <$> rows)) as ND by by_computation.
  assert (Forall (hasCell 0) rows) as Hc by (repeat constructor; by eexists).
  pose proof (click_total localeCompare leadingZero 0 (plainHeader 0 (Some 0)) 0 rows
                eq_refl eq_refl ND Hc) as E1.
  assert (sort_by (rowOrder localeCompare false 0) rows = rows) as S1.
  { change rows with [ {| row_id := 0; cells := ["01"] |}; {| row_id := 1; cells := ["1"] |} ].
    cbn [sort_by insert_by]. unfold rowOrder, ascending.
    change (key 0 {| row_id := 0; cells := ["01"] |}) with "01"%string.
    change (key 0 {| row_id := 1; cells := ["1"] |}) with "1"%string.
    by rewrite T1. }
  assert (sort_by (rowOrder localeCompare true 0) rows = rows) as S2.
  { change rows with [ {| row_id := 0; cells := ["01"] |}; {| row_id := 1; cells := ["1"] |} ].
    cbn [sort_by insert_by]. unfold rowOrder, descending.
    change (key 0 {| row_id := 0; cells := ["01"] |}) with "01"%string.
    change (key 0 {| row_id := 1; cells := ["1"] |}) with "1"%string.
    by rewrite T2. }
  change (contains (classList (plainHeader 0 (Some 0))) sort_asc) with false in E1.
  change (cellIndex (plainHeader 0 (Some 0))) with 0 in E1. rewrite S1 in E1.
  assert (bodyRows d1 0 = rows) as R1 by (unfold d1; by rewrite E1).
  split; [done|].
  set (h1 := withClassList (add sort_asc)
               (withClassList (remove [sort_asc; sort_desc]) (plainHeader 0 (Some 0)))).
  assert (sortableHeaders d1 !! 0 = Some h1) as Hh1 by (unfold d1; by rewrite E1).
  assert (findBody d1 h1 = Some (0, rows)) as Hb1 by (unfold d1; by rewrite E1).
  pose proof (click_total localeCompare d1 0 h1 0 rows Hh1 Hb1 ND Hc) as E2.
  change (contains (classList h1) sort_asc) with true in E2.
  change (cellIndex h1) with 0 in E2. rewrite S2 in E2.
  unfold d2. rewrite E2. unfold d1. by rewrite E1.
Qed.

Example onInput_strips_and_keeps_first_dot :
  NumberInput.onInput "1a2.3.4-5." = "12.345"%string
  ∧ NumberInput.onInput "..x" = "."%string
  ∧ NumberInput.onInput "-12e3" = "123"%string.
Proof. by split_and!. Qed.

End Instances.

(** * Further properties *)

(** ** Number input formatting, continued *)

Section NumberInputMore.
Import JSString NumberInput.

Lemma keepOnly_id keep s : all keep s = true -> keepOnly keep s = s.
Proof.
  induction s as [|c s IH]; simpl; [done|].
  intros [-> H]%andb_true_iff. by rewrite IH.
Qed.

Lemma dot_not_digit c : Ascii.eqb c "." = true -> isDigit c = false.
Proof. by intros ->%Ascii.eqb_eq. Qed.

Lemma not_numeric_not_dot c : numericChar c = false -> Ascii.eqb c "." = false.
Proof. unfold numericChar. by intros [_ ?]%orb_false_iff. Qed.

Lemma not_numeric_not_digit c : numericChar c = false -> isDigit c = false.
Proof. unfold numericChar. by intros [? _]%orb_false_iff. Qed.

Lemma onInput_clean value :
  all numericChar value = true -> count "." value <= 1 -> onInput value = value.
Proof.
  intros Hall Hdots. rewrite onInput_keepFirstDot.
  unfold stripNonNumeric. rewrite keepOnly_id by done. by apply keepFirstDot_id.
Qed.

Lemma onInput_is_clean value :
  all numericChar (onInput value) = true ∧ count "." (onInput value) <= 1.
Proof.
  rewrite onInput_keepFirstDot. split; [|apply count_keepFirstDot].
  apply all_keepFirstDot, all_keepOnly.
Qed.

(** X1: The values the handler leaves alone are exactly those made of the
    characters 0-9 and '.' with at most one '.'. *)
Theorem onInput_fixed_iff value :
  onInput value = value <-> (all numericChar value = true ∧ count "." value <= 1).
Proof.
  split.
  - intros <-. apply onInput_is_clean.
  - intros [? ?]. by apply onInput_clean.
Qed.

(** X2: Running the handler again changes nothing. *)
Theorem onInput_idempotent value : onInput (onInput value) = onInput value.
Proof. destruct (onInput_is_clean value). by apply onInput_clean. Qed.

Lemma count_strip value : count "." (stripNonNumeric value) = count "." value.
Proof.
  unfold stripNonNumeric. induction value as [|c s IH]; simpl; [done|].
  destruct (numericChar c) eqn:E; simpl; [by rewrite IH|].
  by rewrite (not_numeric_not_dot c E).
Qed.

Lemma count_keepFirstDot_min s : count "." (keepFirstDot s) = Nat.min 1 (count "." s).
Proof.
  induction s as [|c s IH]; simpl; [done|].
  destruct (Ascii.eqb c ".") eqn:E; simpl; rewrite E; [by rewrite count_dropDots|done].
Qed.

Lemma digits_dropDots s : keepOnly isDigit (dropDots s) = keepOnly isDigit s.
Proof.
  induction s as [|c s IH]; simpl; [done|].
  destruct (Ascii.eqb c ".") eqn:E; simpl.
  - by rewrite (dot_not_digit c E).
  - by rewrite IH.
Qed.

Lemma digits_keepFirstDot s : keepOnly isDigit (keepFirstDot s) = keepOnly isDigit s.
Proof.
  induction s as [|c s IH]; simpl; [done|].
  destruct (Ascii.eqb c ".") eqn:E; simpl.
  - by rewrite (dot_not_digit c E), digits_dropDots.
  - by rewrite IH.
Qed.

Lemma digits_strip value :
  keepOnly isDigit (stripNonNumeric value) = keepOnly isDigit value.
Proof.
  unfold stripNonNumeric. induction value as [|c s IH]; simpl; [done|].
  destruct (numericChar c) eqn:E; simpl; [by rewrite IH|].
  by rewrite (not_numeric_not_digit c E).
Qed.

(** X3: The handler loses no digit and does not reorder them, and the value
    keeps a decimal point exactly when it had at least one. *)
Theorem onInput_keeps_digits value :
  keepOnly isDigit (onInput value) = keepOnly isDigit value
  ∧ count "." (onInput value) = Nat.min 1 (count "." value).
Proof.
  rewrite onInput_keepFirstDot. split.
  - by rewrite digits_keepFirstDot, digits_strip.
  - by rewrite count_keepFirstDot_min, count_strip.
Qed.

Lemma hd_split_dot_cons c s :
  hd EmptyString (split_dot (String c s))
  = if Ascii.eqb c "." then EmptyString else String c (hd EmptyString (split_dot s)).
Proof.
  simpl. destruct (Ascii.eqb c "."); [done|]. by destruct (split_dot s).
Qed.

Lemma hd_split_keepFirstDot s :
  hd EmptyString (split_dot (keepFirstDot s)) = hd EmptyString (split_dot s).
Proof.
  induction s as [|c s IH]; [done|].
  cbn [keepFirstDot]. destruct (Ascii.eqb c ".") eqn:E.
  - by rewrite !hd_split_dot_cons, E.
  - by rewrite !hd_split_dot_cons, E, IH.
Qed.

Lemma hd_split_strip value :
  hd EmptyString (split_dot (stripNonNumeric value))
  = keepOnly isDigit (hd EmptyString (split_dot value)).
Proof.
  induction value as [|c s IH]; [done|].
  rewrite (hd_split_dot_cons c s). unfold stripNonNumeric in *. cbn [keepOnly].
  destruct (Ascii.eqb c ".") eqn:E.
  - assert (numericChar c = true) as ->
      by (unfold numericChar; by rewrite E, orb_true_r).
    by rewrite hd_split_dot_cons, E.
  - cbn [keepOnly]. destruct (isDigit c) eqn:D.
    + assert (numericChar c = true) as -> by (unfold numericChar; by rewrite D).
      by rewrite hd_split_dot_cons, E, IH.
    + assert (numericChar c = false) as -> by (unfold numericChar; by rewrite D, E).
      exact IH.
Qed.

(** X4: The decimal point stays where the first one was: what precedes it
    afterwards is the digits of what preceded the first '.' before. *)
Theorem onInput_integer_part value :
  hd EmptyString (split_dot (onInput value))
  = keepOnly isDigit (hd EmptyString (split_dot value)).
Proof. by rewrite onInput_keepFirstDot, hd_split_keepFirstDot, hd_split_strip. Qed.

End NumberInputMore.

(** ** Class lists *)

Section ClassListFacts.
Import DOM.
Local Open Scope list_scope.

Lemma contains_add_same token cl : contains (add token cl) token = true.
Proof. apply contains_true, elem_of_add. by left. Qed.

Lemma contains_add_other token token' cl :
  token' ≠ token -> contains (add token cl) token' = contains cl token'.
Proof.
  intros Hne. unfold contains. apply bool_decide_ext.
  rewrite elem_of_add. tauto.
Qed.

Lemma contains_remove_in tokens token cl :
  token ∈ tokens -> contains (remove tokens cl) token = false.
Proof. intros Hin. apply contains_false. rewrite elem_of_remove. tauto. Qed.

Lemma contains_remove_out tokens token cl :
  token ∉ tokens -> contains (remove tokens cl) token = contains cl token.
Proof.
  intros Hout. unfold contains. apply bool_decide_ext.
  rewrite elem_of_remove. tauto.
Qed.

Lemma remove_remove tokens cl : remove tokens (remove tokens cl) = remove tokens cl.
Proof.
  unfold remove. apply filter_all. intros t Ht.
  by apply list_elem_of_filter in Ht as [? _].
Qed.

Lemma remove_add_in tokens token cl :
  token ∈ tokens -> remove tokens (add token cl) = remove tokens cl.
Proof.
  intros Hin. unfold add. destruct (contains cl token); [done|].
  unfold remove. rewrite filter_app, filter_cons_False, filter_nil by tauto.
  by rewrite app_nil_r.
Qed.

Lemma add_absent token cl : token ∉ cl -> add token cl = cl ++ [token].
Proof. intros H. unfold add. by apply contains_false in H as ->. Qed.

End ClassListFacts.

(** ** Validation feedback *)

Section ValidationFacts.
Import JSString DOM Validation.
Local Open Scope list_scope.

Lemma verdicts_distinct : is_valid ≠ is_invalid.
Proof. done. Qed.

Lemma is_valid_verdict : is_valid ∈ [is_valid; is_invalid].
Proof. left. Qed.

Lemma is_invalid_verdict : is_invalid ∈ [is_valid; is_invalid].
Proof. right. left. Qed.

Lemma oneVerdict_contains field :
  contains (fieldClassList field) is_valid && contains (fieldClassList field) is_invalid
  = false <-> oneVerdict field.
Proof.
  unfold oneVerdict. rewrite andb_false_iff, !contains_false. split.
  - intros [?|?] [? ?]; done.
  - intros H. destruct (decide (is_valid ∈ fieldClassList field)); [|by left].
    right. intros ?. by apply H.
Qed.

(** X5: What [validateField] shows: nothing for a blank value, otherwise the
    verdict of [checkValidity] and only that one. *)
Theorem validateField_verdict field :
  let cl := fieldClassList (validateField field) in
  (contains cl is_valid, contains cl is_invalid)
  = if String.eqb (trim (fieldValue field)) EmptyString then (false, false)
    else if checkValidity field then (true, false)
    else (false, true).
Proof.
  unfold validateField.
  destruct (String.eqb _ _); simpl; [|destruct (checkValidity field); simpl].
  - by rewrite !contains_remove_in by auto using is_valid_verdict, is_invalid_verdict.
  - rewrite contains_add_same, contains_add_other by (symmetry; apply verdicts_distinct).
    by rewrite contains_remove_in by apply is_invalid_verdict.
  - rewrite contains_add_same, contains_add_other by apply verdicts_distinct.
    by rewrite contains_remove_in by apply is_valid_verdict.
Qed.

(** X6: [validateField] touches the two verdict classes only: the other
    classes of the field stay, in their order, and so do its value and
    attributes. *)
Theorem validateField_keeps_other_classes field :
  remove [is_valid; is_invalid] (fieldClassList (validateField field))
  = remove [is_valid; is_invalid] (fieldClassList field)
  ∧ fieldValue (validateField field) = fieldValue field
  ∧ fieldMin (validateField field) = fieldMin field
  ∧ fieldMax (validateField field) = fieldMax field.
Proof.
  unfold validateField.
  destruct (String.eqb _ _); simpl; [|destruct (checkValidity field); simpl];
    split_and!; try done.
  - apply remove_remove.
  - rewrite remove_add_in by apply is_valid_verdict. apply remove_remove.
  - rewrite remove_add_in by apply is_invalid_verdict. apply remove_remove.
Qed.

(** X7: Validating a field twice is the same as validating it once. *)
Theorem validateField_idempotent field :
  validateField (validateField field) = validateField field.
Proof.
  unfold validateField.
  destruct (String.eqb (trim (fieldValue field)) EmptyString) eqn:E; simpl;
    [|destruct (checkValidity field) eqn:V; simpl]; rewrite ?E, ?V; simpl;
    unfold setClassList; simpl; f_equal.
  - apply remove_remove.
  - by rewrite remove_add_in, remove_remove by apply is_valid_verdict.
  - by rewrite remove_add_in, remove_remove by apply is_invalid_verdict.
Qed.

(** X8: While the user types, the mark of an invalid field can go but never
    come: after the [input] handler a field is marked invalid exactly
    when it was marked before and is still invalid and not blank. *)
Theorem onInputFeedback_invalid_mark field :
  contains (fieldClassList (onInputFeedback field)) is_invalid
  = contains (fieldClassList field) is_invalid
    && negb (checkValidity field)
    && negb (String.eqb (trim (fieldValue field)) EmptyString).
Proof.
  unfold onInputFeedback.
  destruct (contains (fieldClassList field) is_invalid) eqn:E; [|by rewrite E].
  unfold validateField.
  destruct (String.eqb _ _); simpl; [|destruct (checkValidity field); simpl].
  - rewrite contains_remove_in by apply is_invalid_verdict.
    by rewrite andb_false_r.
  - rewrite contains_add_other by done.
    by rewrite contains_remove_in by apply is_invalid_verdict.
  - by rewrite contains_add_same.
Qed.

End ValidationFacts.

(** ** Range validation *)

Section RangeFacts.
Import JSString DOM Validation.
Local Open Scope list_scope.

Variable number : Type.
Variable parseFloat : string -> number.
Variable isNaN : number -> bool.
Variable lt : number -> number -> bool.

Local Abbreviation validateRange := (validateRange number parseFloat isNaN lt).

Lemma validateRange_classes input :
  isNaN (parseFloat (fieldValue input)) = false ->
  let out := lt (parseFloat (fieldValue input)) (parseFloat (fieldMin input))
             || lt (parseFloat (fieldMax input)) (parseFloat (fieldValue input)) in
  contains (fieldClassList (validateRange input)) is_valid = negb out
  ∧ contains (fieldClassList (validateRange input)) is_invalid = out.
Proof.
  intros Hnum out. unfold Validation.validateRange. rewrite Hnum. fold out.
  destruct out; simpl.
  - rewrite (contains_remove_in [is_valid] is_valid) by left.
    rewrite (contains_remove_out [is_valid] is_invalid)
      by (rewrite list_elem_of_singleton; done).
    by rewrite contains_add_same.
  - rewrite (contains_remove_in [is_invalid] is_invalid) by left.
    rewrite (contains_remove_out [is_invalid] is_valid)
      by (rewrite list_elem_of_singleton; done).
    by rewrite contains_add_same.
Qed.

(** X9: [validateRange] leaves a field whose value is not a number as it is;
    otherwise it shows exactly one verdict, invalid when the value is
    below [min] or above [max] and valid when it is not. *)
Theorem validateRange_verdict input :
  let value := parseFloat (fieldValue input) in
  let out := lt value (parseFloat (fieldMin input))
             || lt (parseFloat (fieldMax input)) value in
  if isNaN value then validateRange input = input
  else (contains (fieldClassList (validateRange input)) is_valid,
        contains (fieldClassList (validateRange input)) is_invalid)
       = (negb out, out).
Proof.
  intros value out. destruct (isNaN value) eqn:E.
  - unfold Validation.validateRange. fold value. by rewrite E.
  - by destruct (validateRange_classes input E) as [-> ->].
Qed.

(** X10: A bound that is missing, or is not a number, does not constrain the
    value: a numeric value is marked invalid exactly when it is below a
    numeric [min] or above a numeric [max]. *)
Theorem validateRange_missing_bounds input :
  nanUnordered number isNaN lt ->
  isNaN (parseFloat (fieldValue input)) = false ->
  contains (fieldClassList (validateRange input)) is_invalid
  = (negb (isNaN (parseFloat (fieldMin input)))
     && lt (parseFloat (fieldValue input)) (parseFloat (fieldMin input)))
    || (negb (isNaN (parseFloat (fieldMax input)))
        && lt (parseFloat (fieldMax input)) (parseFloat (fieldValue input))).
Proof.
  intros Hnan Hnum. destruct (validateRange_classes input Hnum) as [_ ->].
  destruct (isNaN (parseFloat (fieldMin input))) eqn:Emin;
    destruct (isNaN (parseFloat (fieldMax input))) eqn:Emax; simpl;
    rewrite ?(Hnan _ (parseFloat (fieldMin input))) by auto;
    rewrite ?(Hnan (parseFloat (fieldMax input))) by auto;
    simpl; rewrite ?orb_false_r; done.
Qed.

(** X11: No validation handler makes a field show both verdicts: each of
    them keeps the invariant, and [validateField] establishes it. *)
Theorem handlers_keep_one_verdict field :
  oneVerdict field ->
  oneVerdict (validateField field)
  ∧ oneVerdict (onInputFeedback field)
  ∧ oneVerdict (validateRange field).
Proof.
  intros Hone.
  assert (oneVerdict (validateField field)) as Hvf.
  { apply oneVerdict_contains. unfold validateField.
    destruct (String.eqb _ _); simpl; [|destruct (checkValidity field); simpl].
    - by rewrite contains_remove_in by left.
    - rewrite contains_add_same, contains_add_other by done.
      by rewrite contains_remove_in by apply is_invalid_verdict.
    - rewrite contains_add_other by done.
      by rewrite contains_remove_in by left. }
  split_and!; [done| |].
  - unfold onInputFeedback. by destruct (contains _ _).
  - destruct (isNaN (parseFloat (fieldValue field))) eqn:E.
    + unfold Validation.validateRange. by rewrite E.
    + apply oneVerdict_contains.
      destruct (validateRange_classes field E) as [-> ->]. by destruct (_ || _).
Qed.

End RangeFacts.

(** ** Dark mode *)

Section DarkModeFacts.
Import DOM DarkMode.
Local Open Scope list_scope.

Lemma contains_toggle token cl :
  contains (toggle token cl) token = negb (contains cl token).
Proof.
  unfold toggle. destruct (contains cl token) eqn:E; simpl.
  - apply contains_remove_in. left.
  - apply contains_add_same.
Qed.

Lemma remove_toggle token cl :
  remove [token] (toggle token cl) = remove [token] cl.
Proof.
  unfold toggle. destruct (contains cl token).
  - apply remove_remove.
  - apply remove_add_in. left.
Qed.


(** X12: After [n] clicks on the toggle the page is dark exactly when it was
    dark before and [n] is even, or was not and [n] is odd; the other
    classes of the body are as before, in their order. *)
Theorem toggle_parity n p :
  contains (bodyClassList (Nat.iter n onToggle p)) dark_mode
  = xorb (contains (bodyClassList p) dark_mode) (Nat.odd n)
  ∧ remove [dark_mode] (bodyClassList (Nat.iter n onToggle p))
    = remove [dark_mode] (bodyClassList p).
Proof.
  induction n as [|n [IH1 IH2]].
  - simpl. by rewrite xorb_false_r.
  - rewrite Nat.odd_succ, <- Nat.negb_odd, Nat.iter_succ. split.
    + unfold onToggle at 1. simpl. rewrite contains_toggle, IH1.
      generalize (contains (bodyClassList p) dark_mode), (Nat.odd n).
      by intros [] [].
    + unfold onToggle at 1. simpl. by rewrite remove_toggle, IH2.
Qed.


(** X14: Loading the preference only ever adds the class: a page whose markup
    is dark stays dark on every visit, whatever was saved. *)
Theorem saved_preference_never_removes markup p token :
  token ∈ markup -> token ∈ bodyClassList (revisit markup p).
Proof.
  intros Hin. unfold revisit, loadPreference.
  destruct (decide _); simpl; [|done]. apply elem_of_add. by right.
Qed.

End DarkModeFacts.

(** ** Trimming *)

Section TrimFacts.
Import JSString.

Lemma append_cons x (a b : string) : String x a ++ b = String x (a ++ b).
Proof. reflexivity. Qed.

Lemma append_assoc_string (a b c : string) : (a ++ b) ++ c = a ++ (b ++ c).
Proof. induction a as [|x a IH]; [done|]. by rewrite !append_cons, IH. Qed.

Lemma count_append ch (a b : string) : count ch (a ++ b) = count ch a + count ch b.
Proof.
  induction a as [|x a IH]; [done|]. rewrite append_cons. simpl. rewrite IH. lia.
Qed.

Lemma trimStart_length s : String.length (trimStart s) <= String.length s.
Proof.
  induction s as [|c s IH]; simpl; [done|].
  destruct (isWhiteSpace c); simpl; lia.
Qed.

Lemma trimEnd_length s : String.length (trimEnd s) <= String.length s.
Proof.
  induction s as [|c s IH]; simpl; [done|].
  destruct (trimEnd s); [destruct (isWhiteSpace c)|]; simpl in *; lia.
Qed.

Lemma trimStart_head c s : isWhiteSpace c = false -> trimStart (String c s) = String c s.
Proof. intros H. simpl. by rewrite H. Qed.

Lemma trimEnd_head c s :
  isWhiteSpace c = false -> exists u, trimEnd (String c s) = String c u.
Proof.
  intros H. simpl. destruct (trimEnd s); [rewrite H|]; eauto.
Qed.

Lemma trimStart_cases s :
  trimStart s = EmptyString
  ∨ exists c u, trimStart s = String c u ∧ isWhiteSpace c = false.
Proof.
  induction s as [|c s IH]; simpl; [by left|].
  destruct (isWhiteSpace c) eqn:E; [done|]. right. eauto.
Qed.

Lemma trimEnd_idempotent s : trimEnd (trimEnd s) = trimEnd s.
Proof.
  induction s as [|c s IH]; [done|]. cbn [trimEnd].
  destruct (trimEnd s) as [|d t] eqn:E.
  - destruct (isWhiteSpace c) eqn:W; [done|]. simpl. by rewrite W.
  - cbn [trimEnd]. cbn [trimEnd] in IH. by rewrite IH.
Qed.

(** [trim] is idempotent. *)
Lemma trim_idempotent s : trim (trim s) = trim s.
Proof.
  unfold trim. destruct (trimStart_cases s) as [->|(c & u & -> & W)]; [done|].
  destruct (trimEnd_head c u W) as [u' E]. rewrite E.
  rewrite (trimStart_head c u' W), <- E. apply trimEnd_idempotent.
Qed.

Lemma trim_fixed s : trim s = s -> trimStart s = s ∧ trimEnd s = s.
Proof.
  unfold trim. destruct s as [|c s]; [done|]. intros H.
  destruct (isWhiteSpace c) eqn:W.
  - exfalso. apply (f_equal String.length) in H. simpl in H. rewrite W in H.
    pose proof (trimEnd_length (trimStart s)). pose proof (trimStart_length s). lia.
  - rewrite (trimStart_head c s W) in *. done.
Qed.

Lemma trimEnd_append_fixed (x b : string) :
  trimEnd b = b -> b ≠ EmptyString -> trimEnd (x ++ b) = x ++ b.
Proof.
  intros Hb Hne. induction x as [|c x IH]; [done|].
  rewrite append_cons. simpl. rewrite IH. destruct (x ++ b) eqn:E; [|done].
  destruct x; [done|]. by rewrite append_cons in E.
Qed.

Lemma trimStart_append_fixed (a y : string) :
  trimStart a = a -> trimStart y = y -> trimStart (a ++ y) = a ++ y.
Proof.
  intros Ha Hy. destruct a as [|c a]; [done|]. rewrite append_cons. simpl.
  destruct (isWhiteSpace c) eqn:W; [|done].
  exfalso. simpl in Ha. rewrite W in Ha.
  apply (f_equal String.length) in Ha. simpl in Ha.
  pose proof (trimStart_length a). lia.
Qed.

End TrimFacts.

(** ** CSV export *)

Section CsvFacts.
Import JSString CsvExport.

Lemma join_cons sep p q ps : join sep (p :: q :: ps) = p ++ sep ++ join sep (q :: ps).
Proof. reflexivity. Qed.

Lemma join_singleton sep p : join sep [p] = p.
Proof. reflexivity. Qed.

Lemma quoted_trim text : quoted (trim text) = quoted text.
Proof. unfold quoted. by rewrite trim_idempotent. Qed.

(** X15: The export does not depend on the white space around the text of a
    cell. *)
Theorem csv_ignores_surrounding_space (table : list (list string)) :
  csv ((fun row : list string => trim <$> row) <$> table) = csv table.
Proof.
  unfold csv. f_equal. rewrite <- list_fmap_compose. apply list_fmap_ext.
  intros _ row _. simpl. f_equal. rewrite <- list_fmap_compose.
  apply list_fmap_ext. intros _ text _. apply quoted_trim.
Qed.

Lemma count_quoted text :
  count newline (quoted text) = count newline (trim text)
  ∧ count quote (quoted text) = 2 + count quote (trim text).
Proof.
  unfold quoted. simpl. rewrite !count_append. simpl. split; lia.
Qed.

Lemma count_join ch sep (parts : list string) :
  count ch (join sep parts)
  = sum_list (count ch <$> parts) + (List.length parts - 1) * count ch sep.
Proof.
  induction parts as [|p parts IH]; [done|].
  destruct parts as [|q parts].
  - rewrite join_singleton. simpl. lia.
  - rewrite join_cons, !count_append, IH.
    rewrite (fmap_cons _ p). cbn [sum_list sum_list_with List.length]. unfold id.
    replace (S (S (List.length parts)) - 1) with (S (List.length parts)) by lia.
    replace (S (List.length parts) - 1) with (List.length parts) by lia.
    lia.
Qed.

Lemma sum_list_cons (x : nat) (l : list nat) : sum_list (x :: l) = x + sum_list l.
Proof. reflexivity. Qed.

Lemma sum_list_const {A} (f : A -> nat) (c : nat) (l : list A) :
  Forall (fun x => f x = c) l -> sum_list (f <$> l) = c * List.length l.
Proof.
  induction 1 as [|x l Hx _ IH]; [simpl; lia|].
  change (sum_list (f <$> x :: l)) with (f x + sum_list (f <$> l)).
  rewrite Hx, IH. simpl. lia.
Qed.

Lemma count_row (row : list string) :
  Forall plain row ->
  count newline (join (String comma EmptyString) (quoted <$> row)) = 0
  ∧ count quote (join (String comma EmptyString) (quoted <$> row))
    = 2 * List.length row.
Proof.
  intros Hrow. rewrite !count_join, <- !list_fmap_compose, length_fmap.
  rewrite (sum_list_const _ 0), (sum_list_const _ 2).
  - simpl. lia.
  - eapply Forall_impl; [exact Hrow|]. intros text [_ Hq]. unfold compose.
    destruct (count_quoted text) as [_ ->]. lia.
  - eapply Forall_impl; [exact Hrow|]. intros text [Hn _]. unfold compose.
    by destruct (count_quoted text) as [-> _].
Qed.

(** X16: For cells whose text holds no line feed and no quote, the export has
    one line per row and two quotes per cell. *)
Theorem csv_shape (table : list (list string)) :
  Forall (Forall plain) table ->
  count newline (csv table) = List.length table - 1
  ∧ count quote (csv table) = 2 * sum_list (List.length <$> table).
Proof.
  intros Htable. unfold csv. rewrite !count_join, <- !list_fmap_compose, length_fmap.
  rewrite (sum_list_const _ 0).
  - split; [simpl; lia|].
    change (count quote (String newline EmptyString)) with 0.
    rewrite Nat.mul_0_r, Nat.add_0_r.
    induction Htable as [|row table Hrow _ IH]; [done|].
    rewrite !fmap_cons, !sum_list_cons, IH. unfold compose.
    destruct (count_row row Hrow) as [_ ->]. lia.
  - eapply Forall_impl; [exact Htable|]. intros row Hrow. unfold compose.
    by destruct (count_row row Hrow) as [-> _].
Qed.

Lemma trimEnd_cons_fixed c b :
  isWhiteSpace c = false -> trimEnd b = b -> trimEnd (String c b) = String c b.
Proof. intros W Hb. simpl. rewrite Hb. destruct b; [by rewrite W|done]. Qed.

Lemma quoted_collision a b :
  trim a = a -> trim b = b ->
  quoted (a ++ String quote (String comma (String quote b)))
  = quoted a ++ String comma EmptyString ++ quoted b.
Proof.
  intros [Sa Ea]%trim_fixed [Sb Eb]%trim_fixed.
  assert (trim (a ++ String quote (String comma (String quote b)))
          = a ++ String quote (String comma (String quote b))) as T.
  { unfold trim. rewrite trimStart_append_fixed by done.
    change (String quote (String comma (String quote b)))
      with (String quote (String comma EmptyString) ++ String quote b).
    rewrite <- append_assoc_string. apply trimEnd_append_fixed; [|done].
    by apply trimEnd_cons_fixed. }
  unfold quoted. rewrite T. unfold trim. rewrite Sa, Ea, Sb, Eb.
  rewrite !append_cons, !append_assoc_string. reflexivity.
Qed.

(** X17: Quotes are not escaped: a cell whose text is [a], a quote, a
    comma, a quote and [b] is exported exactly like the two cells [a]
    and [b]. *)
Theorem csv_quotes_not_escaped a b (row : list string) (table : list (list string)) :
  trim a = a -> trim b = b ->
  csv (((a ++ String quote (String comma (String quote b))) :: row) :: table)
  = csv ((a :: b :: row) :: table).
Proof.
  intros Ha Hb. unfold csv. rewrite !fmap_cons. f_equal. f_equal.
  rewrite (quoted_collision a b Ha Hb).
  destruct row as [|text row]; [done|].
  rewrite !fmap_cons, !join_cons, !append_assoc_string. reflexivity.
Qed.

End CsvFacts.

(** ** Debouncing *)

Section DebounceFacts.
Import Debounce.
Local Open Scope list_scope.

Context {Args : Type}.
Variable immediate : bool.

Local Abbreviation executedFunction := (executedFunction (Args:=Args) immediate).
Local Abbreviation later := (later (Args:=Args) immediate).
Local Abbreviation run := (run (Args:=Args) immediate).

Lemma coherent_initial : coherent (Args:=Args) initial.
Proof. reflexivity. Qed.

Lemma coherent_call args s : coherent s -> coherent (executedFunction args s).
Proof.
  unfold coherent, Debounce.executedFunction. simpl. intros H. split; [|lia].
  exists args. destruct (timeout s) as [id|]; simpl.
  - destruct H as [[a ->] _]. by rewrite delete_singleton_eq.
  - by rewrite H.
Qed.

Lemma later_pending id s s' :
  coherent s -> later id s = Some s' ->
  exists args, timeout s = Some id ∧ timers s = {[id := args]}
               ∧ s' = {| timeout := None; timers := ∅; nextId := nextId s;
                         invoked := if immediate then invoked s
                                    else invoked s ++ [args] |}.
Proof.
  unfold coherent, Debounce.later. intros H.
  destruct (timeout s) as [id0|]; [destruct H as [[a Ht] _]|]; rewrite ?H, ?Ht.
  - destruct (decide (id0 = id)) as [->|Hne].
    + rewrite lookup_singleton_eq, delete_singleton_eq. intros [= <-]. eauto.
    + by rewrite lookup_singleton_ne.
  - by rewrite lookup_empty.
Qed.

Lemma coherent_later id s s' : coherent s -> later id s = Some s' -> coherent s'.
Proof. intros H E. by destruct (later_pending id s s' H E) as (a & _ & _ & ->). Qed.

Lemma coherent_run es s s' : coherent s -> run s es = Some s' -> coherent s'.
Proof.
  revert s. induction es as [|e es IH]; simpl; intros s H.
  - by intros [= <-].
  - destruct e as [args|id]; simpl.
    + apply IH. by apply coherent_call.
    + destruct (later id s) as [s1|] eqn:E; [|done].
      apply IH. by eapply coherent_later.
Qed.

(** X18: At every moment at most one timer is pending, and it is the one the
    variable [timeout] holds. *)
Theorem one_pending_timer es s :
  run initial es = Some s ->
  match timeout s with
  | Some id => exists args, timers s = {[id := args]}
  | None => timers s = ∅
  end.
Proof.
  intros H. pose proof (coherent_run es initial s coherent_initial H) as C.
  unfold coherent in C. destruct (timeout s); [by destruct C|done].
Qed.

(** X19: A call cancels the timer of the call before: the superseded timer
    can no longer fire. *)
Theorem superseded_timer_never_fires es s id args :
  run initial es = Some s ->
  timeout s = Some id ->
  later id (executedFunction args s) = None.
Proof.
  intros H Hid. pose proof (coherent_run es initial s coherent_initial H) as C.
  unfold coherent in C. rewrite Hid in C. destruct C as [[a Ht] Hlt].
  unfold Debounce.later, Debounce.executedFunction. simpl.
  rewrite Hid, Ht. simpl. rewrite delete_singleton_eq, lookup_insert_ne by lia.
  by rewrite lookup_empty.
Qed.

Lemma run_app es1 es2 s :
  run s (es1 ++ es2) = match run s es1 with Some s' => run s' es2 | None => None end.
Proof.
  revert s. induction es1 as [|e es1 IH]; simpl; intros s; [done|].
  destruct (Debounce.step immediate s e); [apply IH|done].
Qed.

Lemma run_calls rest a s :
  coherent s ->
  run s (Call <$> a :: rest)
  = Some {| timeout := Some (nextId s + List.length rest);
            timers := {[nextId s + List.length rest := default a (last rest)]};
            nextId := S (nextId s + List.length rest);
            invoked := if immediate && negb (bool_decide (is_Some (timeout s)))
                       then invoked s ++ [a] else invoked s |}.
Proof.
  revert a s. induction rest as [|b rest IH]; intros a s C.
  - simpl. unfold Debounce.executedFunction. rewrite Nat.add_0_r. do 2 f_equal.
    unfold coherent in C. destruct (timeout s); simpl.
    + destruct C as [[a' ->] _]. by rewrite delete_singleton_eq.
    + by rewrite C.
  - rewrite fmap_cons. cbn [Debounce.run Debounce.step].
    rewrite (IH b _ (coherent_call a s C)). simpl.
    replace (S (nextId s + List.length rest)) with (nextId s + S (List.length rest))
      by lia.
    rewrite andb_false_r.
    assert (default a (last (b :: rest)) = default b (last rest)) as ->; [|done].
    rewrite last_cons. by destruct (last rest).
Qed.

(** X20: One burst, one invocation: when no timer is pending, any number of
    calls followed by the firing of the last timer invokes [func]
    exactly once, with the arguments of the first call of the burst if
    [immediate] is set and with those of the last call otherwise; no
    timer is pending afterwards. *)
Theorem burst_invokes_once es s a rest :
  run initial es = Some s ->
  timeout s = None ->
  run s ((Call <$> a :: rest) ++ [Fire (nextId s + List.length rest)])
  = Some {| timeout := None;
            timers := ∅;
            nextId := S (nextId s + List.length rest);
            invoked := invoked s ++ [if immediate then a else default a (last rest)] |}.
Proof.
  intros H Hidle. pose proof (coherent_run es initial s coherent_initial H) as C.
  rewrite run_app, (run_calls rest a s C), Hidle. simpl.
  unfold Debounce.later. simpl. rewrite lookup_singleton_eq, delete_singleton_eq.
  by destruct immediate.
Qed.

Lemma invoked_bound es s s' n :
  coherent s -> run s es = Some s' ->
  List.length (invoked s)
  + (if immediate then 0 else match timeout s with Some _ => 1 | None => 0 end) <= n ->
  List.length (invoked s')
  + (if immediate then 0 else match timeout s' with Some _ => 1 | None => 0 end)
  <= n + callCount es.
Proof.
  revert s n. induction es as [|e es IH]; simpl; intros s n C.
  - intros [= <-]. lia.
  - destruct e as [args|id]; simpl.
    + intros E Hn. replace (n + S (callCount es)) with (S n + callCount es) by lia.
      apply (IH _ (S n) (coherent_call args s C) E).
      unfold Debounce.executedFunction. simpl.
      destruct immediate; simpl.
      * destruct (timeout s); simpl; rewrite ?length_app; simpl; lia.
      * destruct (timeout s); lia.
    + destruct (later id s) as [s1|] eqn:E1; [|done]. intros E Hn.
      apply (IH _ n (coherent_later id s s1 C E1) E).
      destruct (later_pending id s s1 C E1) as (a & Hid & _ & ->). simpl.
      rewrite Hid in Hn. destruct immediate; rewrite ?length_app; simpl; lia.
Qed.

(** X21: [func] is never invoked more often than the debounced function was
    called. *)
Theorem invoked_at_most_called es s :
  run initial es = Some s -> List.length (invoked s) <= callCount es.
Proof.
  intros H.
  pose proof (invoked_bound es initial s 0 coherent_initial H) as B.
  simpl in B. destruct immediate; lia.
Qed.

End DebounceFacts.

(** ** Stability of the sort *)

Section StableSortFacts.
Import JSArray.
Local Open Scope list_scope.
Context {A : Type}.
Implicit Types (l : list A) (cmp : A -> A -> Z).

Lemma before_trans cmp a b c :
  consistent cmp -> before cmp a b -> before cmp b c -> before cmp a c.
Proof.
  unfold before. intros C Hab Hbc.
  destruct (Z.lt_trichotomy (cmp a b) 0) as [Lab|[Eab|?]]; [| |lia];
    destruct (Z.lt_trichotomy (cmp b c) 0) as [Lbc|[Ebc|?]]; try lia.
  - pose proof (cf_trans_lt cmp C a b c Lab Lbc). lia.
  - destruct (Z.lt_trichotomy (cmp a c) 0) as [?|[Eac|Gac]]; [lia| |].
    + pose proof (cf_trans_eq cmp C a c b Eac (cf_sym cmp C b c Ebc)). lia.
    + assert (cmp c a < 0)%Z as Lca by (apply consistent_gt_lt; [done|lia]).
      pose proof (cf_trans_lt cmp C c a b Lca Lab).
      pose proof (cf_sym cmp C b c Ebc). lia.
  - destruct (Z.lt_trichotomy (cmp a c) 0) as [?|[Eac|Gac]]; [lia| |].
    + pose proof (cf_trans_eq cmp C b a c (cf_sym cmp C a b Eab) Eac). lia.
    + assert (cmp c a < 0)%Z as Lca by (apply consistent_gt_lt; [done|lia]).
      pose proof (cf_trans_lt cmp C b c a Lbc Lca).
      pose proof (cf_sym cmp C a b Eab). lia.
  - pose proof (cf_trans_eq cmp C a b c Eab Ebc). lia.
Qed.

Lemma sort_by_StronglySorted cmp l :
  consistent cmp -> StronglySorted (before cmp) (sort_by cmp l).
Proof.
  intros C. apply Sorted_StronglySorted; [|by apply sort_by_Sorted].
  intros a b c. by apply before_trans.
Qed.

Lemma tie_trans cmp a x y :
  consistent cmp -> cmp a x = 0%Z -> cmp a y = 0%Z -> cmp x y = 0%Z.
Proof.
  intros C Hx Hy. apply (cf_trans_eq cmp C x a y); [|done]. by apply (cf_sym cmp C).
Qed.

Lemma insert_by_stable cmp a x l :
  consistent cmp ->
  filter (fun r => cmp a r = 0%Z) (insert_by cmp x l)
  = filter (fun r => cmp a r = 0%Z) (x :: l).
Proof.
  intros C. induction l as [|y l IH]; [done|]. simpl.
  destruct (cmp x y <=? 0)%Z eqn:E; [done|]. apply Z.leb_gt in E.
  rewrite (filter_cons _ y), IH, !(filter_cons _ x), (filter_cons _ y).
  destruct (decide (cmp a y = 0%Z)) as [Hy|Hy]; [|done].
  destruct (decide (cmp a x = 0%Z)) as [Hx|Hx]; [|done].
  pose proof (tie_trans cmp a x y C Hx Hy). lia.
Qed.

(** Elements that tie keep their relative order. *)
Lemma sort_by_stable cmp a l :
  consistent cmp ->
  filter (fun r => cmp a r = 0%Z) (sort_by cmp l) = filter (fun r => cmp a r = 0%Z) l.
Proof.
  intros C. induction l as [|x l IH]; [done|]. simpl.
  by rewrite insert_by_stable, !(filter_cons _ x), IH.
Qed.

(** A sorted order in which ties keep a given relative order is unique. *)
Lemma stable_sorted_unique cmp l1 l2 :
  consistent cmp ->
  StronglySorted (before cmp) l1 -> StronglySorted (before cmp) l2 ->
  (forall a, filter (fun r => cmp a r = 0%Z) l1 = filter (fun r => cmp a r = 0%Z) l2) ->
  l1 = l2.
Proof.
  intros C. revert l2. induction l1 as [|x l1 IH]; intros l2 S1 S2 Hf.
  - destruct l2 as [|y l2]; [done|]. specialize (Hf y).
    rewrite filter_nil, filter_cons_True in Hf by apply (cf_refl cmp C). done.
  - destruct l2 as [|y l2].
    { specialize (Hf x).
      rewrite filter_nil, filter_cons_True in Hf by apply (cf_refl cmp C). done. }
    apply StronglySorted_inv in S1 as [S1 Hx]. apply StronglySorted_inv in S2 as [S2 Hy].
    rewrite Forall_forall in Hx, Hy.
    assert (x = y) as <-.
    { pose proof (Hf x) as Fx.
      rewrite (filter_cons_True _ x) in Fx by apply (cf_refl cmp C).
      destruct (decide (cmp x y = 0%Z)) as [T|T].
      - rewrite (filter_cons_True _ y) in Fx by done. by inversion Fx.
      - exfalso. rewrite (filter_cons_False _ y) in Fx by done.
        assert (x ∈ l2) as Hin.
        { eapply (list_elem_of_filter (fun r => cmp x r = 0%Z)).
          rewrite <- Fx. left. }
        pose proof (Hf y) as Fy.
        rewrite (filter_cons_True _ y) in Fy by apply (cf_refl cmp C).
        rewrite (filter_cons_False _ x) in Fy
          by (intros E; apply T; by apply (cf_sym cmp C)).
        assert (y ∈ l1) as Hin'.
        { eapply (list_elem_of_filter (fun r => cmp y r = 0%Z)).
          rewrite Fy. left. }
        pose proof (Hy x Hin) as B1. pose proof (Hx y Hin') as B2.
        unfold before in B1, B2.
        assert (cmp x y < 0)%Z as L by lia.
        pose proof (consistent_lt_gt cmp x y C L). lia. }
    f_equal. apply IH; [done|done|]. intros a. specialize (Hf a).
    rewrite !(filter_cons _ x) in Hf. destruct (decide (cmp a x = 0%Z)); [|done].
    by inversion Hf.
Qed.

End StableSortFacts.

(** ** The click handler, continued *)

Section HandlerMore.
Import JSString JSArray DOM TableSorter.
Local Open Scope list_scope.

Variable localeCompare : string -> string -> Z.

Lemma throw_TypeError {A} (e : exn) : Throw (A:=A) e = Throw TypeError.
Proof. by destruct e. Qed.

Lemma compareRows_Normal isAscending column a b v :
  compareRows localeCompare isAscending column a b = Normal v ->
  hasCell column a ∧ hasCell column b.
Proof.
  unfold compareRows, cellText, hasCell.
  destruct (cells a !! column); simpl; [|done].
  destruct (cells b !! column); simpl; [|done]. eauto.
Qed.

(** A sort that returns compared every element with another one, unless
    there was at most one. *)
Lemma sort_Normal_compared {A} (good : A -> Prop) comparefn (l s : list A) :
  (forall a b v, comparefn a b = Normal v -> good a ∧ good b) ->
  sort comparefn l = Normal s ->
  List.length l <= 1 ∨ Forall good l.
Proof.
  intros Hgood. revert s. induction l as [|x l IH]; intros s; [left; simpl; lia|].
  simpl. destruct (sort comparefn l) as [s'|] eqn:E; simpl; [|done].
  pose proof (sort_Permutation _ _ _ E) as HP.
  destruct s' as [|z s']; simpl.
  - apply Permutation_nil_l in HP as <-. left. simpl. lia.
  - destruct (comparefn x z) as [v|] eqn:Ec; simpl; [|done]. intros _.
    destruct (Hgood _ _ _ Ec) as [Gx Gz]. right. constructor; [done|].
    destruct (IH _ eq_refl) as [Hlen|Hall]; [|done].
    destruct l as [|y [|y' l]]; simpl in Hlen; [| |lia].
    + by apply Permutation_nil_r in HP.
    + apply Permutation_singleton_r in HP as [= -> ->]. by constructor.
Qed.

(** X22: A row without a cell in the clicked column makes the click throw, as
    soon as the body has two rows: the rows are left as they were, but
    the headers already show the new direction. *)
Theorem click_missing_cell_throws d i h t rows :
  sortableHeaders d !! i = Some h ->
  findBody d h = Some (t, rows) ->
  2 <= List.length rows ->
  ¬ Forall (hasCell (cellIndex h)) rows ->
  click localeCompare d i
  = ({| sortableHeaders :=
          updateMarkers (contains (classList h) sort_asc) i (sortableHeaders d);
        tables := tables d |}, Throw TypeError).
Proof.
  intros Hh Hb Hlen Hcell. unfold click. rewrite Hh, Hb. unfold sortBody.
  destruct (sort _ rows) as [sorted|e] eqn:E; simpl.
  - exfalso.
    destruct (sort_Normal_compared (hasCell (cellIndex h)) _ _ _
                (compareRows_Normal _ _) E); [lia|done].
  - by rewrite throw_TypeError.
Qed.





Lemma fmap_updateMarkers {B} (p : Header -> B) isAscending i hs :
  (forall f h, p (withClassList f h) = p h) ->
  p <$> updateMarkers isAscending i hs = p <$> hs.
Proof.
  intros Hp. unfold updateMarkers. apply list_eq. intros j.
  rewrite !list_lookup_fmap. destruct (decide (j = i)) as [->|Hne].
  - rewrite list_lookup_alter_eq, list_lookup_fmap.
    destruct (hs !! i); simpl; [|done]. by rewrite !Hp.
  - rewrite list_lookup_alter_ne, list_lookup_fmap by done.
    destruct (hs !! j); simpl; [|done]. by rewrite Hp.
Qed.

End HandlerMore.

(** ** The further properties on sample data *)

Section MoreInstances.
Import JSString JSArray DOM TableSorter Collator Samples.
Import Validation DarkMode CsvExport Debounce MoreSamples.
Local Open Scope list_scope.

Ltac computed := apply (bool_decide_unpack _); vm_compute; exact I.

Lemma sample_nanUnordered :
  nanUnordered SampleNumbers.number SampleNumbers.isNaN SampleNumbers.lt.
Proof. intros [x|] [y|] [H|H]; simpl in *; done. Qed.

Lemma validateRange_missing_bounds_witness :
  contains
    (fieldClassList
       (validateRange SampleNumbers.number SampleNumbers.parseFloat SampleNumbers.isNaN
          SampleNumbers.lt SampleNumbers.free)) is_invalid
  = false.
Proof.
  exact (validateRange_missing_bounds SampleNumbers.number SampleNumbers.parseFloat
           SampleNumbers.isNaN SampleNumbers.lt SampleNumbers.free
           sample_nanUnordered eq_refl).
Defined.

Lemma handlers_keep_one_verdict_witness :
  oneVerdict (validateField SampleNumbers.age)
  ∧ oneVerdict (onInputFeedback SampleNumbers.age)
  ∧ oneVerdict (validateRange SampleNumbers.number SampleNumbers.parseFloat
                  SampleNumbers.isNaN SampleNumbers.lt SampleNumbers.age).
Proof.
  apply (handlers_keep_one_verdict SampleNumbers.number SampleNumbers.parseFloat
           SampleNumbers.isNaN SampleNumbers.lt SampleNumbers.age).
  apply oneVerdict_contains. reflexivity.
Defined.


Lemma saved_preference_never_removes_witness :
  dark_mode ∈ bodyClassList (revisit ["bg-light"; dark_mode] (onToggle (onToggle firstVisit))).
Proof.
  apply (saved_preference_never_removes ["bg-light"; dark_mode]
           (onToggle (onToggle firstVisit)) dark_mode).
  computed.
Defined.

Lemma csv_shape_witness :
  count newline (csv results) = List.length results - 1
  ∧ count quote (csv results) = 2 * sum_list (List.length <$> results).
Proof.
  apply (csv_shape results). repeat constructor.
Defined.

Lemma csv_quotes_not_escaped_witness :
  csv ((("Ann" ++ String quote (String comma (String quote "12")))%string :: []) :: results)
  = csv (("Ann" :: "12" :: []) :: results).
Proof.
  apply (csv_quotes_not_escaped "Ann" "12" [] results); reflexivity.
Defined.

Lemma one_pending_timer_witness :
  match timeout afterTrace with
  | Some id => exists args, timers afterTrace = {[id := args]}
  | None => timers afterTrace = ∅
  end.
Proof. apply (one_pending_timer false trace afterTrace). reflexivity. Defined.

Lemma superseded_timer_never_fires_witness :
  later false 3 (executedFunction false 40 afterTrace) = None.
Proof.
  apply (superseded_timer_never_fires false trace afterTrace 3 40); reflexivity.
Defined.

Lemma burst_invokes_once_witness :
  run false idleAfterBurst ((Call <$> 30 :: [40; 50]) ++ [Fire (nextId idleAfterBurst + 2)])
  = Some {| timeout := None;
            timers := ∅;
            nextId := S (nextId idleAfterBurst + 2);
            invoked := invoked idleAfterBurst ++ [default 30 (last [40; 50])] |}.
Proof.
  apply (burst_invokes_once false [Call 10; Call 20; Fire 2] idleAfterBurst 30 [40; 50]);
    reflexivity.
Defined.

Lemma invoked_at_most_called_witness :
  List.length (invoked afterTrace) <= callCount trace.
Proof. apply (invoked_at_most_called false trace afterTrace). reflexivity. Defined.

Lemma click_missing_cell_throws_witness :
  click numericCollate ragged 0
  = ({| sortableHeaders := updateMarkers false 0 (sortableHeaders ragged);
        tables := tables ragged |}, Throw TypeError).
Proof.
  apply (click_missing_cell_throws numericCollate ragged 0
           {| classList := ["sortable"]; cellIndex := 0; closestTable := Some 0 |} 0
           (bodyRows ragged 0)).
  - reflexivity.
  - reflexivity.
  - simpl. lia.
  - intros H. apply Forall_cons in H as [_ H]. apply Forall_cons in H as [[text H] _].
    discriminate H.
Defined.



(** The tied rows "1", "01" and "2", "02" keep their order in both
    directions. *)
Example tied_clicks :
  key 0 <$> bodyRows (click numericCollate tied 0).1 0 = ["1"; "01"; "2"; "02"]%string
  ∧ key 0 <$> bodyRows (click numericCollate (click numericCollate tied 0).1 0).1 0
    = ["2"; "02"; "1"; "01"]%string.
Proof. split; reflexivity. Qed.

End MoreInstances.

(** * Bodies with nested tables *)

(** ** Flat bodies in the nested model *)

Section NestedFacts.
Import JSString DOM Nested.
Local Open Scope list_scope.

Implicit Types (row r : Tr) (children F s : list Tr).

Lemma noNestedRow_within (td : list Content) :
  forallb (fun c => match c with
                    | text _ => true
                    | table [] => true
                    | table (_ :: _) => false
                    end) td = true ->
  List.concat (List.map within td) = [] ∧ forall id, List.map (removeFromContent id) td = td.
Proof.
  induction td as [|c td IH]; [done|]. cbn [forallb List.map List.concat].
  intros [Hc Htd]%andb_true_iff. destruct (IH Htd) as [IH1 IH2]. split.
  - rewrite IH1. by destruct c as [|[|]].
  - intros id. rewrite IH2. by destruct c as [|[|]].
Qed.

Lemma noNestedRow_descendants r :
  noNestedRow r = true ->
  descendants r = [] ∧ forall id, removeFromTr id r = r.
Proof.
  destruct r as [i tds]. unfold noNestedRow. cbn [cells descendants removeFromTr].
  induction tds as [|td tds IH]; [done|]. cbn [forallb List.map List.concat].
  intros [Htd Htds]%andb_true_iff. destruct (IH Htds) as [IH1 IH2].
  destruct (noNestedRow_within td Htd) as [W1 W2]. split.
  - by rewrite W1, IH1.
  - intros id. specialize (IH2 id). injection IH2 as IH2. by rewrite W2, IH2.
Qed.

Lemma querySelectorAll_flat F :
  Forall (fun r => noNestedRow r = true) F -> querySelectorAll_tr F = F.
Proof.
  unfold querySelectorAll_tr. induction 1 as [|r F Hr _ IH]; [done|].
  cbn [List.map List.concat]. destruct (noNestedRow_descendants r Hr) as [-> _].
  by rewrite IH.
Qed.

Lemma removeRow_flat id F :
  Forall (fun r => noNestedRow r = true) F ->
  removeRow id F = filter (fun r => row_id r ≠ id) F.
Proof.
  unfold removeRow. induction 1 as [|r F Hr _ IH]; [done|].
  cbn [List.map List.concat]. rewrite IH, filter_cons.
  destruct (noNestedRow_descendants r Hr) as [_ ->].
  destruct (Nat.eqb_spec (row_id r) id) as [E|E].
  - by rewrite decide_False by tauto.
  - by rewrite decide_True by done.
Qed.

Lemma find_row F r :
  NoDup (row_id <$> F) -> r ∈ F ->
  List.find (fun x => (row_id x =? row_id r)%nat) F = Some r.
Proof.
  induction F as [|x F IH]; intros ND Hin; [by apply elem_of_nil in Hin|].
  rewrite fmap_cons in ND. apply NoDup_cons in ND as [Hx ND]. simpl.
  apply elem_of_cons in Hin as [->|Hin]; [by rewrite Nat.eqb_refl|].
  destruct (Nat.eqb_spec (row_id x) (row_id r)) as [E|E]; [|by apply IH].
  exfalso. apply Hx. rewrite E. apply list_elem_of_fmap. eauto.
Qed.

Lemma flatBody_Permutation F s : flatBody F -> s ≡ₚ F -> flatBody s.
Proof. intros [Hf ND] HP. split; by rewrite HP. Qed.

Lemma appendChild_flat F r :
  flatBody F -> r ∈ F ->
  appendChild F r = filter (fun x => row_id x ≠ row_id r) F ++ [r].
Proof.
  intros [Hf ND] Hin. unfold appendChild.
  by rewrite querySelectorAll_flat, find_row, removeRow_flat.
Qed.

Lemma appendChild_flat_Permutation F r :
  flatBody F -> r ∈ F -> appendChild F r ≡ₚ F.
Proof.
  intros HF Hin. rewrite appendChild_flat by done. destruct HF as [_ ND].
  induction F as [|x F IH]; [by apply elem_of_nil in Hin|].
  rewrite fmap_cons in ND. apply NoDup_cons in ND as [Hx ND].
  apply elem_of_cons in Hin as [->|Hin].
  - rewrite filter_cons_False by tauto. rewrite filter_all.
    + by rewrite <- Permutation_cons_append.
    + intros y Hy E. apply Hx. rewrite <- E. apply list_elem_of_fmap. eauto.
  - rewrite filter_cons_True.
    + simpl. by rewrite IH.
    + intros E. apply Hx. rewrite E. apply list_elem_of_fmap. eauto.
Qed.

Lemma foldl_appendChild_flat s F :
  flatBody F -> NoDup (row_id <$> s) -> (forall x, x ∈ s -> x ∈ F) ->
  foldl appendChild F s = filter (fun x => row_id x ∉ row_id <$> s) F ++ s.
Proof.
  revert F. induction s as [|x s IH]; intros F HF ND Hsub; simpl.
  - rewrite app_nil_r. symmetry. apply filter_all.
    intros r _ Hr. by apply elem_of_nil in Hr.
  - apply NoDup_cons in ND as [Hx ND].
    assert (x ∈ F) as Hin by (apply Hsub; left).
    rewrite IH.
    + rewrite appendChild_flat by done.
      rewrite filter_app, list_filter_filter, filter_cons_True, filter_nil by done.
      rewrite <- app_assoc. simpl. f_equal.
      apply list_filter_iff. intros r. rewrite !elem_of_cons. tauto.
    + eapply flatBody_Permutation; [exact HF|]. by apply appendChild_flat_Permutation.
    + done.
    + intros y Hy. rewrite appendChild_flat by done.
      apply elem_of_app. left. apply list_elem_of_filter. split.
      * intros E. apply Hx. rewrite <- E. apply list_elem_of_fmap. eauto.
      * apply Hsub. by right.
Qed.

(** On a flat body the re-append loop leaves exactly the sorted array. *)
Lemma reappend_flat F s : flatBody F -> s ≡ₚ F -> foldl appendChild F s = s.
Proof.
  intros HF HP. rewrite foldl_appendChild_flat.
  - rewrite filter_none; [done|]. intros r Hr Hn. apply Hn.
    apply list_elem_of_fmap. exists r. by rewrite HP.
  - done.
  - destruct HF as [_ ND]. by rewrite HP.
  - intros x. by rewrite HP.
Qed.

End NestedFacts.

(** ** The click handler on bodies that may hold nested tables *)

Section NestedHandlerFacts.
Import JSString JSArray DOM TableSorter Nested.
Local Open Scope list_scope.

Variable localeCompare : string -> string -> Z.

Local Abbreviation click := (Nested.click localeCompare).
Local Abbreviation sortBody := (Nested.sortBody localeCompare).
Local Abbreviation compareRows := (Nested.compareRows localeCompare).
Local Abbreviation rowOrder := (Nested.rowOrder localeCompare).

Lemma nested_cellText_key column row :
  hasCell column row -> cellText column row = Normal (key column row).
Proof. intros [td H]. unfold cellText, key. by rewrite H. Qed.

Lemma nested_compareRows_total isAscending column a b :
  hasCell column a -> hasCell column b ->
  compareRows isAscending column a b = Normal (rowOrder isAscending column a b).
Proof.
  intros Ha Hb. unfold Nested.compareRows. rewrite !nested_cellText_key by done. simpl.
  by destruct isAscending.
Qed.

Lemma nested_rowOrder_consistent isAscending column :
  consistent localeCompare -> consistent (rowOrder isAscending column).
Proof.
  intros C. destruct isAscending; simpl; split; intros *;
    unfold Nested.rowOrder, ascending, descending;
    eauto using cf_refl, cf_sym, cf_trans_eq, cf_trans_lt, cf_trans_gt.
Qed.

Lemma sortBody_flat isAscending column children rows' :
  flatBody children ->
  sortBody isAscending column children = Normal rows' <->
  sort (compareRows isAscending column) children = Normal rows'.
Proof.
  intros HF. unfold Nested.sortBody.
  rewrite querySelectorAll_flat by apply HF.
  destruct (sort _ children) as [sorted|] eqn:E; simpl; [|done].
  apply sort_Permutation in E. by rewrite reappend_flat.
Qed.

Lemma sortBody_flat_Permutation isAscending column children rows' :
  flatBody children ->
  sortBody isAscending column children = Normal rows' -> rows' ≡ₚ children.
Proof. intros HF H. apply sortBody_flat in H; [|done]. by apply sort_Permutation in H. Qed.

Lemma sortBody_flat_total isAscending column children :
  flatBody children -> Forall (hasCell column) children ->
  sortBody isAscending column children
  = Normal (sort_by (rowOrder isAscending column) children).
Proof.
  intros HF Hc. apply sortBody_flat; [done|]. apply sort_total.
  rewrite Forall_forall in Hc. intros. apply nested_compareRows_total; auto.
Qed.

Lemma nested_findBody_Some d h t children :
  findBody d h = Some (t, children) <->
  closestTable h = Some t
  ∧ exists tbl, tables d !! t = Some tbl ∧ tbody tbl = Some children.
Proof.
  unfold findBody. split.
  - intros H. destruct (closestTable h) as [t'|]; simpl in H; [|done].
    destruct (tables d !! t') as [tbl|] eqn:Et; simpl in H; [|done].
    destruct (tbody tbl) as [rows0|] eqn:Eb; simpl in H; [|done].
    inversion H; subst. eauto.
  - intros (-> & tbl & Ht & Hb). simpl. rewrite Ht. simpl. by rewrite Hb.
Qed.

Lemma nested_findBody_bodyRows d h t children :
  findBody d h = Some (t, children) ->
  bodyRows d t = children ∧ t < List.length (tables d).
Proof.
  intros (_ & tbl & Ht & Hb)%nested_findBody_Some. unfold bodyRows. split.
  - by rewrite Ht; simpl; rewrite Hb.
  - by eapply lookup_lt_Some.
Qed.

Lemma nested_wellFormed_body d h t children :
  wellFormed d -> findBody d h = Some (t, children) -> flatBody children.
Proof.
  intros WF (_ & tbl & Ht & Hb)%nested_findBody_Some.
  unfold wellFormed in WF. rewrite Forall_lookup in WF.
  specialize (WF t tbl Ht). simpl in WF. by rewrite Hb in WF.
Qed.

Lemma nested_bodyRows_insert hs tbls t children :
  t < List.length tbls ->
  bodyRows {| sortableHeaders := hs; tables := <[t := {| tbody := Some children |}]> tbls |} t
  = children.
Proof. intros Ht. unfold bodyRows. simpl. by rewrite list_lookup_insert_eq. Qed.

Lemma nested_bodyRows_insert_ne hs tbls t t' tbl :
  t' ≠ t ->
  bodyRows {| sortableHeaders := hs; tables := <[t := tbl]> tbls |} t'
  = bodyRows {| sortableHeaders := hs; tables := tbls |} t'.
Proof. intros Ht. unfold bodyRows. simpl. by rewrite list_lookup_insert_ne. Qed.

(** A click on a flat body whose rows all have the cell sorts it. *)
Lemma click_flat_total d i h t children :
  sortableHeaders d !! i = Some h -> findBody d h = Some (t, children) ->
  flatBody children -> Forall (hasCell (cellIndex h)) children ->
  click d i =
  ({| sortableHeaders :=
        updateMarkers (contains (classList h) sort_asc) i (sortableHeaders d);
      tables :=
        <[t := {| tbody := Some (sort_by (rowOrder (contains (classList h) sort_asc)
                                            (cellIndex h)) children) |}]>
          (tables d) |}, Normal tt).
Proof.
  intros Hh Hb HF Hc. unfold Nested.click. rewrite Hh, Hb.
  by rewrite sortBody_flat_total.
Qed.

(** C9, amended: in a document whose bodies are flat (every [tr]
    descendant of a body is one of its children, the nodes being
    distinct) a click moves rows and neither adds, drops nor changes any:
    the rows of every body after the click are a permutation of its rows
    before, and when [sort] returns, the clicked body holds the rows in
    exactly the order of the sorted array. *)
Theorem flat_click_permutes_rows d i :
  wellFormed d ->
  (forall t, bodyRows (click d i).1 t ≡ₚ bodyRows d t)
  ∧ (forall h t children sorted,
       sortableHeaders d !! i = Some h ->
       findBody d h = Some (t, children) ->
       sort (compareRows (contains (classList h) sort_asc) (cellIndex h))
         (querySelectorAll_tr children) = Normal sorted ->
       bodyRows (click d i).1 t = sorted).
Proof.
  intros WF. split.
  - intros t'. unfold Nested.click.
    destruct (sortableHeaders d !! i) as [h|] eqn:Hh; [|done].
    destruct (findBody d h) as [[t children]|] eqn:Hb; [|done].
    pose proof (nested_wellFormed_body _ _ _ _ WF Hb) as HF.
    destruct (nested_findBody_bodyRows _ _ _ _ Hb) as [Hrows Hlt].
    destruct (Nested.sortBody _ _ _ children) as [rows'|] eqn:Hs; simpl; [|done].
    apply sortBody_flat_Permutation in Hs; [|done].
    destruct (decide (t' = t)) as [->|Hne].
    + by rewrite nested_bodyRows_insert, Hrows.
    + by rewrite nested_bodyRows_insert_ne.
  - intros h t children sorted Hh Hb Hs.
    pose proof (nested_wellFormed_body _ _ _ _ WF Hb) as HF.
    destruct (nested_findBody_bodyRows _ _ _ _ Hb) as [_ Hlt].
    rewrite querySelectorAll_flat in Hs by apply HF.
    apply sortBody_flat in Hs; [|done].
    unfold Nested.click. rewrite Hh, Hb, Hs. simpl.
    by apply nested_bodyRows_insert.
Qed.

(** C7, amended: on a flat body, sorting the rows ascending and sorting
    the result ascending again, the direction being ascending both times,
    gives the same row order as the first sort. *)
Theorem flat_ascending_sort_idempotent column children :
  consistent localeCompare ->
  flatBody children ->
  Forall (hasCell column) children ->
  exists rows1,
    sortBody false column children = Normal rows1
    ∧ sortBody false column rows1 = Normal rows1.
Proof.
  intros C HF Hc. exists (sort_by (rowOrder false column) children).
  split; [by apply sortBody_flat_total|].
  rewrite sortBody_flat_total.
  - by rewrite sort_by_idempotent by by apply nested_rowOrder_consistent.
  - eapply flatBody_Permutation; [exact HF|]. apply sort_by_Permutation.
  - by rewrite sort_by_Permutation.
Qed.

(** C6, amended: on a flat body in which no two rows tie under the
    comparison of their keys, the click that follows an ascending sort of
    the same header orders the rows descending, and the row sequence is
    the reverse of the ascending one. *)
Theorem flat_second_click_reverses d i h t children :
  consistent localeCompare ->
  sortableHeaders d !! i = Some h ->
  findBody d h = Some (t, children) ->
  flatBody children ->
  Forall (hasCell (cellIndex h)) children ->
  contains (classList h) sort_asc = false ->
  (forall a b, a ∈ children -> b ∈ children ->
     localeCompare (key (cellIndex h) a) (key (cellIndex h) b) = 0%Z -> a = b) ->
  let d1 := (click d i).1 in
  let d2 := (click d1 i).1 in
  (click d i).2 = Normal tt
  ∧ (click d1 i).2 = Normal tt
  ∧ StronglySorted (strictlyBefore (ascending localeCompare (cellIndex h))) (bodyRows d1 t)
  ∧ StronglySorted (strictlyBefore (descending localeCompare (cellIndex h))) (bodyRows d2 t)
  ∧ bodyRows d2 t = reverse (bodyRows d1 t).
Proof.
  intros C Hh Hb HF Hc Hasc Hties d1 d2.
  destruct (nested_findBody_bodyRows _ _ _ _ Hb) as [_ Hlt].
  pose proof (click_flat_total d i h t children Hh Hb HF Hc) as E1. rewrite Hasc in E1.
  simpl in E1.
  set (rows1 := sort_by (ascending localeCompare (cellIndex h)) children) in *.
  assert (rows1 ≡ₚ children) as HP by apply sort_by_Permutation.
  assert (StronglySorted (strictlyBefore (ascending localeCompare (cellIndex h))) rows1)
    as HS.
  { apply sort_by_strict; [by apply (nested_rowOrder_consistent false)| |done].
    eapply NoDup_fmap_1. apply HF. }
  set (h1 := withClassList (add sort_asc) (withClassList (remove [sort_asc; sort_desc]) h)).
  assert (sortableHeaders d1 !! i = Some h1) as Hh1.
  { unfold d1. rewrite E1. simpl. by apply (updateMarkers_lookup false). }
  assert (findBody d1 h1 = Some (t, rows1)) as Hb1.
  { apply nested_findBody_Some. split.
    - simpl. by apply nested_findBody_Some in Hb as [? _].
    - exists {| tbody := Some rows1 |}. split; [|done]. unfold d1. rewrite E1. simpl.
      by apply list_lookup_insert_eq. }
  assert (contains (classList h1) sort_asc = true) as Hasc1.
  { apply contains_true. simpl. apply elem_of_add. by left. }
  assert (flatBody rows1) as HF1 by by eapply flatBody_Permutation.
  assert (Forall (hasCell (cellIndex h1)) rows1) as Hc1 by by rewrite HP.
  pose proof (click_flat_total d1 i h1 t rows1 Hh1 Hb1 HF1 Hc1) as E2.
  rewrite Hasc1 in E2. simpl in E2.
  assert (sort_by (descending localeCompare (cellIndex h)) rows1 = reverse rows1) as Hrev.
  { apply (sort_by_flip_reverse (ascending localeCompare (cellIndex h)));
      [by apply (nested_rowOrder_consistent false)|done]. }
  rewrite Hrev in E2.
  assert (bodyRows d1 t = rows1) as R1.
  { unfold d1. rewrite E1. by apply nested_bodyRows_insert. }
  assert (bodyRows d2 t = reverse rows1) as R2.
  { unfold d2. rewrite E2. apply nested_bodyRows_insert.
    unfold d1. rewrite E1. simpl. by rewrite length_insert. }
  rewrite R1, R2. split_and!; try done.
  - by rewrite E1.
  - by rewrite E2.
  - apply (StronglySorted_reverse _ _ HS).
Qed.

Lemma nested_tie_symmetric column a r :
  consistent localeCompare ->
  descending localeCompare column a r = 0%Z <-> ascending localeCompare column a r = 0%Z.
Proof.
  intros C. unfold descending, ascending. split; apply (cf_sym _ C).
Qed.

Lemma nested_rowOrder_stable isAscending column a rows :
  consistent localeCompare ->
  filter (fun r => ascending localeCompare column a r = 0%Z)
    (sort_by (rowOrder isAscending column) rows)
  = filter (fun r => ascending localeCompare column a r = 0%Z) rows.
Proof.
  intros C. destruct isAscending; simpl.
  - rewrite <- !(list_filter_iff _ _ _ (fun r => nested_tie_symmetric column a r C)).
    apply sort_by_stable. by apply (nested_rowOrder_consistent true).
  - apply sort_by_stable. by apply (nested_rowOrder_consistent false).
Qed.

(** X24: after a click on a flat body the rows are in the order of the
    new direction: no row comes before a row that the comparator of the
    click puts strictly first. *)
Theorem flat_click_orders_rows d i h t children :
  consistent localeCompare ->
  sortableHeaders d !! i = Some h ->
  findBody d h = Some (t, children) ->
  flatBody children ->
  Forall (hasCell (cellIndex h)) children ->
  StronglySorted
    (before (rowOrder (contains (classList h) sort_asc) (cellIndex h)))
    (bodyRows (click d i).1 t).
Proof.
  intros C Hh Hb HF Hc. rewrite (click_flat_total d i h t children) by done. simpl.
  rewrite nested_bodyRows_insert.
  - apply sort_by_StronglySorted. by apply nested_rowOrder_consistent.
  - by destruct (nested_findBody_bodyRows _ _ _ _ Hb).
Qed.

(** X26: on a flat body, sorting ascending, then descending, then
    ascending again gives the first ascending order back, ties
    included. *)
Theorem flat_ascending_descending_ascending column children :
  consistent localeCompare ->
  flatBody children ->
  Forall (hasCell column) children ->
  exists up down,
    sortBody false column children = Normal up
    ∧ sortBody true column up = Normal down
    ∧ sortBody false column down = Normal up.
Proof.
  intros C HF Hc.
  set (up := sort_by (rowOrder false column) children).
  set (down := sort_by (rowOrder true column) up).
  assert (up ≡ₚ children) as Pup by apply sort_by_Permutation.
  assert (down ≡ₚ children) as Pdown by (unfold down; by rewrite sort_by_Permutation).
  exists up, down. split_and!.
  - by apply sortBody_flat_total.
  - apply sortBody_flat_total; [by eapply flatBody_Permutation|by rewrite Pup].
  - rewrite sortBody_flat_total;
      [|by eapply flatBody_Permutation|by rewrite Pdown]. f_equal.
    apply (stable_sorted_unique (ascending localeCompare column)).
    + by apply (nested_rowOrder_consistent false).
    + apply (sort_by_StronglySorted (rowOrder false column)).
      by apply nested_rowOrder_consistent.
    + apply (sort_by_StronglySorted (rowOrder false column)).
      by apply nested_rowOrder_consistent.
    + intros a. rewrite (nested_rowOrder_stable false column a down C).
      unfold down. rewrite (nested_rowOrder_stable true column a up C).
      unfold up. by rewrite (nested_rowOrder_stable false column a children C).
Qed.

(** X27: in a document whose bodies are flat, a click changes class lists
    and the order of the rows of one body, nothing else: the bodies stay
    flat with distinct nodes, the headers keep their column and their
    table, and the tables other than the clicked header's are
    untouched. *)
Theorem flat_click_keeps_document_shape d i :
  wellFormed d ->
  wellFormed (click d i).1
  ∧ cellIndex <$> sortableHeaders (click d i).1 = cellIndex <$> sortableHeaders d
  ∧ closestTable <$> sortableHeaders (click d i).1 = closestTable <$> sortableHeaders d
  ∧ List.length (tables (click d i).1) = List.length (tables d)
  ∧ (forall h t t', sortableHeaders d !! i = Some h -> closestTable h = Some t ->
       t' ≠ t -> tables (click d i).1 !! t' = tables d !! t').
Proof.
  intros WF. unfold Nested.click.
  destruct (sortableHeaders d !! i) as [h|] eqn:Hh; [|done].
  destruct (findBody d h) as [[t children]|] eqn:Hb; [|done].
  pose proof (nested_wellFormed_body _ _ _ _ WF Hb) as HF.
  destruct (Nested.sortBody _ _ _ children) as [rows'|] eqn:Hs; simpl.
  - apply sortBody_flat_Permutation in Hs; [|done].
    split_and!; try by apply fmap_updateMarkers.
    + apply Forall_insert; [done|]. simpl. by eapply flatBody_Permutation.
    + by rewrite length_insert.
    + intros h' t0 t' [= <-] Ht Hne. apply nested_findBody_Some in Hb as [Ht' _].
      rewrite Ht in Ht'. injection Ht' as ->. by rewrite list_lookup_insert_ne.
  - split_and!; try done; by apply fmap_updateMarkers.
Qed.

End NestedHandlerFacts.

(** ** The flat model is the nested model on flat documents *)

Section Simulation.
Import JSString JSArray DOM TableSorter.
Local Open Scope list_scope.

Variable localeCompare : string -> string -> Z.

Lemma insert_fmap {A B} (f : A -> B) cmpA cmpB x (l : list A) :
  (forall a b, cmpB (f a) (f b) = cmpA a b) ->
  insert cmpB (f x) (f <$> l)
  = match insert cmpA x l with
    | Normal s => Normal (f <$> s)
    | Throw e => Throw e
    end.
Proof.
  intros H. induction l as [|y l IH]; [done|].
  rewrite fmap_cons. cbn [insert]. rewrite H.
  destruct (cmpA x y) as [v|e]; simpl; [|done].
  destruct (v <=? 0)%Z; [done|]. rewrite IH.
  by destruct (insert cmpA x l).
Qed.

Lemma sort_fmap {A B} (f : A -> B) cmpA cmpB (l : list A) :
  (forall a b, cmpB (f a) (f b) = cmpA a b) ->
  sort cmpB (f <$> l)
  = match sort cmpA l with
    | Normal s => Normal (f <$> s)
    | Throw e => Throw e
    end.
Proof.
  intros H. induction l as [|x l IH]; [done|].
  rewrite fmap_cons. cbn [sort]. rewrite IH.
  destruct (sort cmpA l) as [s|e]; simpl; [|done]. by apply insert_fmap.
Qed.

Lemma textContent_text s : Nested.textContent [Nested.text s] = s.
Proof.
  unfold Nested.textContent. simpl. unfold join_empty. simpl.
  induction s as [|c s IH]; [done|]. by rewrite append_cons, IH.
Qed.

Lemma compareRows_ofRow isAscending column a b :
  Nested.compareRows localeCompare isAscending column (Nested.ofRow a) (Nested.ofRow b)
  = compareRows localeCompare isAscending column a b.
Proof.
  unfold Nested.compareRows, compareRows, Nested.cellText, cellText.
  cbn [Nested.cells Nested.ofRow]. rewrite !list_lookup_fmap.
  destruct (cells a !! column); simpl; [|done]. rewrite textContent_text.
  destruct (cells b !! column); simpl; [|done]. by rewrite textContent_text.
Qed.

Lemma flatBody_ofRow rows :
  NoDup (row_id <$> rows) -> Nested.flatBody (Nested.ofRow <$> rows).
Proof.
  intros ND. split.
  - apply Forall_fmap, Forall_forall. intros r _. unfold Nested.noNestedRow. simpl.
    induction (cells r) as [|c cs IH]; [done|]. by rewrite fmap_cons.
  - by rewrite <- list_fmap_compose.
Qed.

Lemma sortBody_ofRow isAscending column rows :
  NoDup (row_id <$> rows) ->
  Nested.sortBody localeCompare isAscending column (Nested.ofRow <$> rows)
  = match sortBody localeCompare isAscending column rows with
    | Normal rows' => Normal (Nested.ofRow <$> rows')
    | Throw e => Throw e
    end.
Proof.
  intros ND. pose proof (flatBody_ofRow rows ND) as HF.
  unfold Nested.sortBody, sortBody.
  rewrite querySelectorAll_flat by apply HF.
  rewrite (sort_fmap Nested.ofRow (compareRows localeCompare isAscending column))
    by apply compareRows_ofRow.
  destruct (sort _ rows) as [sorted|e] eqn:E; simpl; [|done].
  apply sort_Permutation in E.
  rewrite reappend_flat, reappend_sorted; [done|done|done|done|by rewrite E].
Qed.

(** For a document whose cells hold text only, the handler of the
    nested model does what [TableSorter.click] does. *)
Lemma click_ofDocument d i :
  wellFormed d ->
  Nested.click localeCompare (Nested.ofDocument d) i
  = (Nested.ofDocument (click localeCompare d i).1, (click localeCompare d i).2).
Proof.
  intros WF. unfold Nested.click, click. simpl.
  destruct (sortableHeaders d !! i) as [h|] eqn:Hh; [|done].
  unfold Nested.findBody, findBody. simpl.
  destruct (closestTable h) as [t|]; simpl; [|done]. rewrite list_lookup_fmap.
  destruct (tables d !! t) as [tbl|] eqn:Ht; simpl; [|done].
  destruct (tbody tbl) as [rows|] eqn:Hb; simpl; [|done].
  assert (NoDup (row_id <$> rows)) as ND.
  { unfold wellFormed in WF. rewrite Forall_lookup in WF.
    specialize (WF t tbl Ht). unfold distinctRows in WF. by rewrite Hb in WF. }
  rewrite sortBody_ofRow by done.
  destruct (sortBody localeCompare _ _ rows) as [rows'|e]; simpl; [|done].
  unfold Nested.ofDocument. simpl. by rewrite list_fmap_insert.
Qed.

End Simulation.

(** ** The nested model on sample documents *)

Section NestedInstances.
Import JSString JSArray DOM TableSorter Collator Nested NestedSamples.
Local Open Scope list_scope.

Ltac decided := apply (bool_decide_unpack _); vm_compute; exact I.

Lemma flat_click_permutes_rows_witness :
  (forall t, bodyRows (Nested.click numericCollate numbersDoc 0).1 t ≡ₚ bodyRows numbersDoc t)
  ∧ (forall h t children sorted,
       sortableHeaders numbersDoc !! 0 = Some h ->
       findBody numbersDoc h = Some (t, children) ->
       sort (Nested.compareRows numericCollate (contains (classList h) sort_asc)
               (cellIndex h)) (querySelectorAll_tr children) = Normal sorted ->
       bodyRows (Nested.click numericCollate numbersDoc 0).1 t = sorted).
Proof. apply (flat_click_permutes_rows numericCollate numbersDoc 0). decided. Defined.

Lemma flat_ascending_sort_idempotent_witness :
  exists rows1,
    Nested.sortBody numericCollate false 0 numbers = Normal rows1
    ∧ Nested.sortBody numericCollate false 0 rows1 = Normal rows1.
Proof.
  apply (flat_ascending_sort_idempotent numericCollate 0 numbers).
  - exact numericCollate_consistent.
  - decided.
  - repeat constructor; by eexists.
Defined.

Lemma flat_second_click_reverses_witness :
  let d1 := (Nested.click numericCollate numbersDoc 0).1 in
  let d2 := (Nested.click numericCollate d1 0).1 in
  (Nested.click numericCollate numbersDoc 0).2 = Normal tt
  ∧ (Nested.click numericCollate d1 0).2 = Normal tt
  ∧ StronglySorted (strictlyBefore (ascending numericCollate 0)) (bodyRows d1 0)
  ∧ StronglySorted (strictlyBefore (descending numericCollate 0)) (bodyRows d2 0)
  ∧ bodyRows d2 0 = reverse (bodyRows d1 0).
Proof.
  apply (flat_second_click_reverses numericCollate numbersDoc 0 header 0 numbers).
  - exact numericCollate_consistent.
  - reflexivity.
  - reflexivity.
  - decided.
  - repeat constructor; by eexists.
  - reflexivity.
  - intros a b Ha Hb E. unfold numbers in Ha, Hb.
    repeat match goal with
           | H : _ ∈ _ :: _ |- _ => apply elem_of_cons in H as [->|H]
           | H : _ ∈ [] |- _ => by apply elem_of_nil in H
           end; first [reflexivity | vm_compute in E; discriminate E].
Defined.

Lemma flat_click_orders_rows_witness :
  StronglySorted (before (Nested.rowOrder numericCollate false 0))
    (bodyRows (Nested.click numericCollate tiesDoc 0).1 0).
Proof.
  apply (flat_click_orders_rows numericCollate tiesDoc 0 header 0 ties).
  - exact numericCollate_consistent.
  - reflexivity.
  - reflexivity.
  - decided.
  - repeat constructor; by eexists.
Defined.

Lemma flat_ascending_descending_ascending_witness :
  exists up down,
    Nested.sortBody numericCollate false 0 ties = Normal up
    ∧ Nested.sortBody numericCollate true 0 up = Normal down
    ∧ Nested.sortBody numericCollate false 0 down = Normal up.
Proof.
  apply (flat_ascending_descending_ascending numericCollate 0 ties).
  - exact numericCollate_consistent.
  - decided.
  - repeat constructor; by eexists.
Defined.

Lemma flat_click_keeps_document_shape_witness :
  wellFormed (Nested.click numericCollate tiesDoc 0).1
  ∧ cellIndex <$> sortableHeaders (Nested.click numericCollate tiesDoc 0).1
    = cellIndex <$> sortableHeaders tiesDoc
  ∧ closestTable <$> sortableHeaders (Nested.click numericCollate tiesDoc 0).1
    = closestTable <$> sortableHeaders tiesDoc
  ∧ List.length (tables (Nested.click numericCollate tiesDoc 0).1)
    = List.length (tables tiesDoc)
  ∧ (forall h t t', sortableHeaders tiesDoc !! 0 = Some h -> closestTable h = Some t ->
       t' ≠ t -> tables (Nested.click numericCollate tiesDoc 0).1 !! t' = tables tiesDoc !! t').
Proof. apply (flat_click_keeps_document_shape numericCollate tiesDoc 0). decided. Defined.

(** C9, as stated, fails: the click on the body whose first row encloses
    the row [10] moves that row into the body and changes the row that
    enclosed it, so the body holds three rows where it held two. *)
Lemma nested_rows_not_permuted :
  bodyRows (Nested.click numericCollate enclosingDoc 0).1 0
  = [ tr 1 [[text "az"]]; tr 10 [[text "b"]]; tr 0 [[table []; text "a"]] ]
  ∧ ¬ (bodyRows (Nested.click numericCollate enclosingDoc 0).1 0
        ≡ₚ bodyRows enclosingDoc 0).
Proof.
  split; [reflexivity|]. intros H. apply Permutation_length in H. discriminate H.
Qed.

(** C7, as stated, fails: on that body the first ascending sort leaves
    the rows reading "az", "b", "a", and the second ascending sort, which
    reads "a" where the first read "ba", leaves "a", "az", "b". *)
Lemma nested_sort_not_idempotent :
  Nested.sortBody numericCollate false 0 enclosing
  = Normal [ tr 1 [[text "az"]]; tr 10 [[text "b"]]; tr 0 [[table []; text "a"]] ]
  ∧ Nested.sortBody numericCollate false 0
      [ tr 1 [[text "az"]]; tr 10 [[text "b"]]; tr 0 [[table []; text "a"]] ]
    = Normal [ tr 0 [[table []; text "a"]]; tr 1 [[text "az"]]; tr 10 [[text "b"]] ]
  ∧ [ tr 1 [[text "az"]]; tr 10 [[text "b"]]; tr 0 [[table []; text "a"]] ]
    ≠ [ tr 0 [[table []; text "a"]]; tr 1 [[text "az"]]; tr 10 [[text "b"]] ].
Proof. split_and!; [reflexivity|reflexivity|discriminate]. Qed.

(** C6, as stated, fails twice.  The keys "01" and "1" are distinct, yet
    they tie under numeric collation, so the stable sort keeps the two
    rows in place on both clicks.  And on the body whose first row
    encloses the row [10] the keys "ba", "b", "az" are distinct and do
    not tie, yet the second click leaves "b", "az", "a", which is not the
    reverse of "az", "b", "a". *)
Lemma distinct_keys_not_reversed :
  (let d1 := (Nested.click numericCollate zerosDoc 0).1 in
   let d2 := (Nested.click numericCollate d1 0).1 in
   NoDup (key 0 <$> querySelectorAll_tr (bodyRows zerosDoc 0))
   ∧ sortState <$> sortableHeaders d1 !! 0 = Some Ascending
   ∧ sortState <$> sortableHeaders d2 !! 0 = Some Descending
   ∧ row_id <$> bodyRows d1 0 = [0; 1]
   ∧ row_id <$> bodyRows d2 0 = [0; 1]
   ∧ bodyRows d2 0 ≠ reverse (bodyRows d1 0))
  ∧ (let d1 := (Nested.click numericCollate enclosingDoc 0).1 in
     let d2 := (Nested.click numericCollate d1 0).1 in
     NoDup (key 0 <$> querySelectorAll_tr (bodyRows enclosingDoc 0))
     ∧ Forall (fun a => Forall (fun b =>
                 numericCollate (key 0 a) (key 0 b) = 0%Z -> row_id a = row_id b)
                 (querySelectorAll_tr (bodyRows enclosingDoc 0)))
         (querySelectorAll_tr (bodyRows enclosingDoc 0))
     ∧ sortState <$> sortableHeaders d1 !! 0 = Some Ascending
     ∧ sortState <$> sortableHeaders d2 !! 0 = Some Descending
     ∧ key 0 <$> bodyRows d1 0 = ["az"; "b"; "a"]%string
     ∧ key 0 <$> bodyRows d2 0 = ["b"; "az"; "a"]%string
     ∧ bodyRows d2 0 ≠ reverse (bodyRows d1 0)).
Proof.
  split; split_and!; try reflexivity; try decided; vm_compute; discriminate.
Qed.

End NestedInstances.
